(** * DRAMConsole: the /proc/kmsg.last ring buffer and snapshot (kmsg_last.c)

    A shallow embedding of the five functions of [kmsg_last.c] that carry
    the algorithmic content of the module:

      - [ring_buffer_write]   (capture path, line-granular eviction)
      - [ring_buffer_copy]    (validity check, snapshot builder, sanitizer)
      - [ring_buffer_init]
      - [linear_buffer_read]  (snapshot reader)
      - [linear_buffer_write] (snapshot eraser)

    Conventions of the embedding.

      - A [char] is a [Z] holding the 8-bit pattern of the byte, [0 .. 255].
        The only places where the code looks at the value of a [char] are
        [== '\n'], [& 0x80], [&= 0x7F], [< 0x20] and [|= 0x20]; on a target
        with signed [char] the promoted value of a byte with bit 7 set is
        negative, but the code masks bit 7 away before the one ordered
        comparison, so the bit pattern decides every test on both kinds of
        target.
      - A [char *] is the address it holds, a [Z].  The block [*rbuf] starts
        with [data], so [rbuf->data] is the address [rbuf] itself; the byte
        [rbuf->data[i]] lives at address [rbuf + i] and is element [i] of
        the list that models the array.
      - The target is LP64, as Linux on 64-bit machines: [uintptr_t] and
        [size_t] are 64-bit unsigned, [loff_t] and [ssize_t] 64-bit signed,
        [int] 32-bit signed.
      - A load or store outside an array is undefined behaviour in C; the
        embedding stops with [Err OutOfBounds] there.  Loops whose bound is
        not syntactic run on fuel and stop with [Err OutOfFuel] when it is
        used up; the theorems show that neither happens on the states the
        module can be in. *)

From stdpp Require Import base numbers list option.

Local Open Scope Z_scope.

(** ** Constants *)

(** [#define BUF_SIZE 8192] *)
Definition BUF_SIZE : Z := 8192.

(** [#define BUF_MAGIC 0x4B4D5347] *)
Definition BUF_MAGIC : Z := 0x4B4D5347.

(** ['\n'] *)
Definition NL : Z := 10.

(** [EFAULT] of [<asm-generic/errno-base.h>]. *)
Definition EFAULT : Z := 14.

(** ** Integer conversions of the C types involved (LP64) *)

(** Conversion to a 64-bit unsigned type ([uintptr_t], [size_t],
    [unsigned long long]). *)
Definition u64 (x : Z) : Z := x mod 2 ^ 64.

(** Conversion to a 64-bit signed type ([loff_t], [ssize_t]). *)
Definition s64 (x : Z) : Z := (x + 2 ^ 63) mod 2 ^ 64 - 2 ^ 63.

(** Conversion to [int]. *)
Definition s32 (x : Z) : Z := (x + 2 ^ 31) mod 2 ^ 32 - 2 ^ 31.

Definition uintptr_t : Z → Z := u64.
Definition size_t : Z → Z := u64.
Definition ssize_t : Z → Z := s64.
Definition loff_t : Z → Z := s64.

(** ** Results of code that can leave the arrays or run out of fuel *)

Inductive fault : Type :=
  | OutOfBounds
  | OutOfFuel.

Inductive result (A : Type) : Type :=
  | Ok (a : A)
  | Err (e : fault).

Arguments Ok {A} a.
Arguments Err {A} e.

#[global] Instance result_ret : MRet result := λ A a, Ok a.
#[global] Instance result_bind : MBind result := λ A B f m,
  match m with
  | Ok a => f a
  | Err e => Err e
  end.

(** ** Arrays of [char] *)

(** [a[off]] read. *)
Definition load (a : list Z) (off : Z) : result Z :=
  if off <? 0 then Err OutOfBounds
  else match a !! Z.to_nat off with
       | Some c => Ok c
       | None => Err OutOfBounds
       end.

(** [a[off] = c]. *)
Definition store (a : list Z) (off : Z) (c : Z) : result (list Z) :=
  if off <? 0 then Err OutOfBounds
  else match a !! Z.to_nat off with
       | Some _ => Ok (<[Z.to_nat off := c]> a)
       | None => Err OutOfBounds
       end.

(** The [n] bytes [a[off] .. a[off + n - 1]], as [copy_to_user] reads them.
    No byte is touched when [n] is 0. *)
Definition load_range (a : list Z) (off n : Z) : result (list Z) :=
  if n =? 0 then Ok []
  else if (0 <=? off) && (0 <=? n) && (off + n <=? Z.of_nat (length a))
       then Ok (take (Z.to_nat n) (drop (Z.to_nat off) a))
       else Err OutOfBounds.

(** ** The two buffers *)

(** [static struct { char data[BUF_SIZE]; char *head; char *tail; int magic; } *rbuf;]
    [addr] is the value of the pointer [rbuf], which is also the address of
    [rbuf->data[0]]. *)
Module rbuf.
Record t : Type := mk {
  addr : Z;
  data : list Z;
  head : Z;
  tail : Z;
  magic : Z
}.
End rbuf.

(** [static struct { char data[BUF_SIZE]; int count; } *lbuf;] *)
Module lbuf.
Record t : Type := mk {
  data : list Z;
  count : Z
}.
End lbuf.

(** ** ring_buffer_write *)

(** The eviction scan,
    [while (!found) { found = *tail++ == '\n'; if (tail == stop) tail = start;
                      if (tail == head) break; }],
    entered with [found == 0].  It returns the final [tail]. *)
Fixpoint evict (fuel : nat) (data : list Z) (start stop head tail : Z)
  : result Z :=
  match fuel with
  | O => Err OutOfFuel
  | S fuel' =>
      c ← load data (tail - start);
      let found := c =? NL in
      let tail := tail + 1 in
      let tail := if tail =? stop then start else tail in
      if tail =? head then Ok tail
      else if found then Ok tail
      else evict fuel' data start stop head tail
  end.

(** The scan visits every cell at most once before it meets [head] again,
    so [BUF_SIZE] rounds are enough; see [evict_total]. *)
Definition evict_fuel : nat := Z.to_nat BUF_SIZE.

Arguments evict_fuel : simpl never.

(** One round of [while (len--)]: the byte [c = *str++] is stored. *)
Definition write_char (start stop : Z) (st : list Z * Z * Z) (c : Z)
  : result (list Z * Z * Z) :=
  let '(data, head, tail) := st in
  data ← store data (head - start) c;
  let head := head + 1 in
  let head := if head =? stop then start else head in
  if head =? tail then
    tail ← evict evict_fuel data start stop head tail;
    Ok (data, head, tail)
  else Ok (data, head, tail).

(** [while (len--) { ... }] over the [len] bytes at [str]. *)
Fixpoint write_loop (start stop : Z) (st : list Z * Z * Z) (str : list Z)
  : result (list Z * Z * Z) :=
  match str with
  | [] => Ok st
  | c :: str' =>
      st ← write_char start stop st c;
      write_loop start stop st str'
  end.

(** [ring_buffer_write(console, str, len)]; [str] is the list of the [len]
    bytes.  Interrupts are off for the whole body, so it runs atomically. *)
Definition ring_buffer_write (r : rbuf.t) (str : list Z) : result rbuf.t :=
  let start := rbuf.addr r in
  let stop := rbuf.addr r + BUF_SIZE in
  let head := rbuf.head r in
  let tail := rbuf.tail r in
  '(data, head, tail) ← write_loop start stop (rbuf.data r, head, tail) str;
  Ok (rbuf.mk (rbuf.addr r) data head tail (rbuf.magic r)).

(** A sequence of calls, one per chunk the console layer hands over. *)
Fixpoint ring_buffer_writes (r : rbuf.t) (chunks : list (list Z))
  : result rbuf.t :=
  match chunks with
  | [] => Ok r
  | str :: chunks' =>
      r ← ring_buffer_write r str;
      ring_buffer_writes r chunks'
  end.

(** ** ring_buffer_init *)

Definition ring_buffer_init (r : rbuf.t) : rbuf.t :=
  rbuf.mk (rbuf.addr r) (rbuf.data r) (rbuf.addr r) (rbuf.addr r) BUF_MAGIC.

(** ** ring_buffer_copy *)

(** The two [if]s on [data] in the copy loop. *)
Definition sanitize (data : Z) : Z :=
  let data := if Z.land data 0x80 =? 0 then data else Z.land data 0x7F in
  if (data <? 0x20) && negb (data =? NL) then Z.lor data 0x20 else data.

(** The test of the first [if]; [true] when the content is taken as valid. *)
Definition ring_valid (r : rbuf.t) : bool :=
  negb (negb (rbuf.magic r =? BUF_MAGIC)
        || (BUF_SIZE <=? uintptr_t (rbuf.head r - rbuf.addr r))
        || (BUF_SIZE <=? uintptr_t (rbuf.tail r - rbuf.addr r))).

(** [while (head != tail) { data = *tail++; ...; *dst++ = data; }];
    [dst] is kept as the index into [lbuf->data]. *)
Fixpoint copy_loop (fuel : nat) (src : list Z) (start stop head tail : Z)
    (dst : Z) (out : list Z) : result (list Z) :=
  match fuel with
  | O => Err OutOfFuel
  | S fuel' =>
      if head =? tail then Ok out
      else
        data ← load src (tail - start);
        let tail := tail + 1 in
        let tail := if tail =? stop then start else tail in
        out ← store out dst (sanitize data);
        copy_loop fuel' src start stop head tail (dst + 1) out
  end.

(** The loop test is reached at most [BUF_SIZE] times; see
    [copy_loop_window]. *)
Definition copy_fuel : nat := Z.to_nat BUF_SIZE.

Arguments copy_fuel : simpl never.

Definition ring_buffer_copy (r : rbuf.t) (l : lbuf.t) : result lbuf.t :=
  if negb (ring_valid r) then Ok (lbuf.mk (lbuf.data l) 0)
  else
    let start := rbuf.addr r in
    let stop := rbuf.addr r + BUF_SIZE in
    let head := rbuf.head r in
    let tail := rbuf.tail r in
    let count := s32 ((if head <? tail then BUF_SIZE else 0) + head - tail) in
    out ← copy_loop copy_fuel (rbuf.data r) start stop head tail 0 (lbuf.data l);
    Ok (lbuf.mk out count).

(** ** linear_buffer_read and linear_buffer_write *)

(** [copy_to_user(buf, src + off, n)] of the kernel: the number of bytes that
    could not be copied, paired with the bytes that reached the caller.

    The kernel checks the destination first: [access_ok(buf, n)] refuses a
    range that does not lie in user space, and no user range has [2 ^ 63]
    bytes or more; a refused request copies nothing and returns [n].
    Otherwise it copies from the front until a write to the caller's buffer
    faults.  [ubuf] is the number of bytes this call gets to store at [buf]
    (0 for a bad pointer); the source is read as far as bytes are copied. *)
Definition copy_to_user (ubuf : Z) (src : list Z) (off n : Z)
  : result (Z * list Z) :=
  if n =? 0 then Ok (0, [])
  else if 2 ^ 63 <=? n then Ok (n, [])
  else
    let k := Z.min n ubuf in
    bytes ← load_range src off k;
    Ok (n - k, bytes).

(** What a call of [linear_buffer_read] leaves behind: the value returned,
    the bytes placed in the caller's buffer and the new [*ppos]. *)
Record read_t : Type := mk_read {
  read_ret : Z;
  read_bytes : list Z;
  read_pos : Z
}.

(** [linear_buffer_read(file, buf, count, ppos)], with [count] a [size_t]
    and [pos] the [loff_t] found in [*ppos]. *)
Definition linear_buffer_read (l : lbuf.t) (ubuf : Z) (count : Z) (pos : Z)
  : result read_t :=
  let pos := if lbuf.count l <=? pos then lbuf.count l else pos in
  let count :=
    if u64 (lbuf.count l) <=? u64 (pos + count)
    then size_t (lbuf.count l - pos)
    else count in
  '(rest, bytes) ← copy_to_user ubuf (lbuf.data l) pos count;
  if negb (rest =? 0) then Ok (mk_read (- EFAULT) bytes pos)
  else Ok (mk_read (ssize_t count) bytes (loff_t (pos + count))).

(** [linear_buffer_write(file, buf, count, ppos)]: the new buffer and the
    value returned. *)
Definition linear_buffer_write (l : lbuf.t) (count : Z) : lbuf.t * Z :=
  (lbuf.mk (lbuf.data l) 0, ssize_t count).

(** ** Observations used in the statements *)

(** The array has its declared size. *)
Definition sized (a : list Z) : Prop := Z.of_nat (length a) = BUF_SIZE.

(** [p] points into [rbuf->data], that is into [start, start + BUF_SIZE). *)
Definition in_storage (r : rbuf.t) (p : Z) : Prop :=
  rbuf.addr r <= p < rbuf.addr r + BUF_SIZE.

(** The state the capture path runs on. *)
Definition rbuf_ok (r : rbuf.t) : Prop :=
  sized (rbuf.data r) ∧ in_storage r (rbuf.head r) ∧ in_storage r (rbuf.tail r).

(** Number of bytes from [tail] up to [head], going round. *)
Definition span (r : rbuf.t) : Z :=
  (rbuf.head r - rbuf.tail r) mod BUF_SIZE.

(** The retained window: the bytes from [tail] to [head], read circularly.
    Reading the array twice in a row unrolls the wrap. *)
Definition window (r : rbuf.t) : list Z :=
  take (Z.to_nat (span r))
       (drop (Z.to_nat (rbuf.tail r - rbuf.addr r)) (rbuf.data r ++ rbuf.data r)).

(** The valid part of the snapshot, [lbuf->data[0 .. count - 1]]. *)
Definition snapshot (l : lbuf.t) : list Z :=
  take (Z.to_nat (lbuf.count l)) (lbuf.data l).

(** A byte that is safe to print: newline or [0x20 .. 0x7F]. *)
Definition printable (c : Z) : Prop := c = NL ∨ 0x20 <= c <= 0x7F.

(** A bit pattern of a [char]. *)
Definition is_char (c : Z) : Prop := 0 <= c < 256.

(** The sanitizer as the specification words it: first clear the high bit
    (values from 0x80 on become the value minus 0x80), then set bit 0x20 on
    a control character other than newline. *)
Definition sanitize_spec (b : Z) : Z :=
  let b1 := if 0x80 <=? b then b - 0x80 else b in
  if (b1 <? 0x20) && negb (b1 =? 0x0A) then Z.lor b1 0x20 else b1.

(** Rounds the eviction scan needs from [tail] until it meets [head], on
    an array placed at [start, stop). *)
Definition dist (start stop tail head : Z) : Z :=
  if tail <? head then head - tail else head - tail + (stop - start).

(** The locals [data], [head], [tail] of [ring_buffer_write] are in order. *)
Definition locals_ok (start stop : Z) (st : list Z * Z * Z) : Prop :=
  let '(data, head, tail) := st in
  sized data ∧ start <= head < stop ∧ start <= tail < stop.

(** A 64-bit pointer value. *)
Definition ptr (p : Z) : Prop := 0 <= p < 2 ^ 64.

(** What the block at [rbuf] can hold when the module starts: an array of
    the declared size lying inside the address space, and two pointer
    words of any value. *)
Definition rbuf_typed (r : rbuf.t) : Prop :=
  sized (rbuf.data r) ∧ 0 <= rbuf.addr r ∧ rbuf.addr r + BUF_SIZE <= 2 ^ 64
  ∧ ptr (rbuf.head r) ∧ ptr (rbuf.tail r).

(** The snapshot buffer in order: declared size, length within it. *)
Definition lbuf_ok (l : lbuf.t) : Prop :=
  sized (lbuf.data l) ∧ 0 <= lbuf.count l <= BUF_SIZE.

(** ** Statements of the specification about one run *)

(** What the capture path retains of [chunks] written after a reset. *)
Definition retains_all (r : rbuf.t) (chunks : list (list Z)) : Prop :=
  ∃ r', ring_buffer_writes (ring_buffer_init r) chunks = Ok r'
        ∧ window r' = concat chunks.

(** Cursor [p] moved one cell forward, going round at the end. *)
Definition advance (r : rbuf.t) (p : Z) : Z :=
  if p + 1 =? rbuf.addr r + BUF_SIZE then rbuf.addr r else p + 1.

(** [r1] is a ring buffer that, since its reset, has taken in one line of
    exactly [BUF_SIZE] bytes without a newline. *)
Definition holds_full_line (r1 : rbuf.t) : Prop :=
  ∃ r line, sized (rbuf.data r) ∧ sized line ∧ Forall (λ c, c ≠ NL) line
            ∧ ring_buffer_write (ring_buffer_init r) line = Ok r1.

(** Writing byte [b] to [r1] drops exactly one byte: [tail] moves one cell,
    keeping pace with [head]. *)
Definition drops_one_byte (r1 : rbuf.t) (b : Z) : Prop :=
  ∃ r2, ring_buffer_write r1 [b] = Ok r2
        ∧ rbuf.tail r2 = advance r1 (rbuf.tail r1)
        ∧ rbuf.head r2 = advance r1 (rbuf.head r1).

(** What the specification says of one call of [linear_buffer_read]: the
    offset is clamped to [0, length], the count so that offset + count <=
    length, and the call returns that slice of the snapshot and moves the
    position behind it. *)
Definition read_clamps (l : lbuf.t) (ubuf count pos : Z) : Prop :=
  let off := Z.max 0 (Z.min pos (lbuf.count l)) in
  let n := Z.min count (lbuf.count l - off) in
  linear_buffer_read l ubuf count pos
  = Ok (mk_read n (take (Z.to_nat n) (drop (Z.to_nat off) (snapshot l)))
                (off + n)).

(** What the specification says of one call of [linear_buffer_write] with
    [count] bytes: the length becomes 0 and [count] is reported. *)
Definition erases (l : lbuf.t) (count : Z) : Prop :=
  lbuf.count (linear_buffer_write l count).1 = 0
  ∧ (linear_buffer_write l count).2 = count.

(** A read that returns zero bytes. *)
Definition reads_nothing (l : lbuf.t) (ubuf count pos : Z) : Prop :=
  ∃ res, linear_buffer_read l ubuf count pos = Ok res
         ∧ read_ret res = 0 ∧ read_bytes res = [].

(** ** Concrete buffers for the examples *)

(** A block as the allocator may hand it over: zeroes, cursors and marker
    not set up. *)
Definition cold_block : rbuf.t :=
  rbuf.mk 4096 (replicate (Z.to_nat BUF_SIZE) 0) 0 0 0.

(** [BUF_SIZE] times the letter [a]. *)
Definition full_line : list Z := replicate (Z.to_nat BUF_SIZE) 97.

(** A ring left by an earlier session whose content wraps: [tail] is two
    cells before the end of the storage and [head] three cells after its
    start. *)
Definition wrapped_ring : rbuf.t :=
  rbuf.mk 4096
    ([0x80; 0x0A; 0x07] ++ replicate (Z.to_nat BUF_SIZE - 5) 0x41 ++ [0xFF; 0x1B])
    (4096 + 3) (4096 + BUF_SIZE - 2) BUF_MAGIC.

(** A snapshot buffer as the allocator hands it over. *)
Definition blank : lbuf.t := lbuf.mk (replicate (Z.to_nat BUF_SIZE) 0x55) 1234.

(** A snapshot of 100 letters. *)
Definition letters : lbuf.t := lbuf.mk (replicate (Z.to_nat BUF_SIZE) 0x41) 100.

(** ** The module's start-up *)

(** [ENOMEM] of [<asm-generic/errno-base.h>]. *)
Definition ENOMEM : Z := 12.

(** [proc_kmsg_last_late_init()].  The two static pointers [rbuf] and [lbuf]
    are [None] when null, and hold the block they point to otherwise.  The
    result is the value returned and the two blocks as the function leaves
    them.  [proc_create] hands the file operations to the kernel and touches
    neither block.  [register_console] makes the kernel call the [write]
    callback of the console: the kernel announces the console through the
    console itself, and whatever else is printed meanwhile goes the same
    way.  [printed] is the sequence of chunks the kernel hands to
    [ring_buffer_write] before [register_console] returns. *)
Definition proc_kmsg_last_late_init (r : option rbuf.t) (l : option lbuf.t)
    (printed : list (list Z)) : result (Z * option rbuf.t * option lbuf.t) :=
  match l, r with
  | Some lb, Some rb =>
      lb' ← ring_buffer_copy rb lb;
      let rb := ring_buffer_init rb in
      rb ← ring_buffer_writes rb printed;
      Ok (0, Some rb, Some lb')
  | _, _ => Ok (- ENOMEM, r, l)
  end.

(** ** The capture path seen from the retained window *)

(** The window of the locals [data], [head], [tail] of [ring_buffer_write]
    and [ring_buffer_copy], for an array placed at [start]. *)
Definition window_at (start : Z) (data : list Z) (head tail : Z) : list Z :=
  take (Z.to_nat ((head - tail) mod BUF_SIZE))
       (drop (Z.to_nat (tail - start)) (data ++ data)).

(** What follows the first newline of a byte sequence; nothing when it has
    no newline. *)
Fixpoint after_newline (l : list Z) : list Z :=
  match l with
  | [] => []
  | c :: l' => if c =? NL then l' else after_newline l'
  end.

(** The window after one more byte: the byte is appended while that leaves
    a cell free, otherwise the oldest line goes. *)
Definition push (w : list Z) (c : Z) : list Z :=
  if Z.of_nat (length w) + 1 <? BUF_SIZE then w ++ [c]
  else after_newline (w ++ [c]).

(** The window after the bytes of [str], one after the other. *)
Definition pushes (w : list Z) (str : list Z) : list Z := fold_left push str w.

(** A ring whose window is full: [BUF_SIZE - 1] bytes from [tail], three
    cells into the storage, round to [head], two cells into it; the oldest
    line is ["AAAA\n"]. *)
Definition nearly_full_ring : rbuf.t :=
  rbuf.mk 4096
    (replicate 7 0x41 ++ [NL] ++ replicate (Z.to_nat BUF_SIZE - 8) 0x42)
    (4096 + 2) (4096 + 3) BUF_MAGIC.

(** A full window without a newline that ends in the last cell but one:
    [tail] at the start of the storage, [head] at its last cell. *)
Definition edge_ring : rbuf.t :=
  rbuf.mk 4096 (replicate (Z.to_nat BUF_SIZE) 0x42)
    (4096 + BUF_SIZE - 1) 4096 BUF_MAGIC.

(** A full window without a newline, cursors in the middle of the storage. *)
Definition one_line_ring : rbuf.t :=
  rbuf.mk 4096 (replicate (Z.to_nat BUF_SIZE) 0x42)
    (4096 + 2) (4096 + 3) BUF_MAGIC.

(** * Proofs *)

Lemma bind_Ok {A B : Type} (a : A) (f : A → result B) : Ok a ≫= f = f a.
Proof. reflexivity. Qed.

Lemma bind_Err {A B : Type} (e : fault) (f : A → result B) : Err e ≫= f = Err e.
Proof. reflexivity. Qed.

(** Run the code up to the next call whose result is not known yet. *)
Ltac run := repeat (rewrite bind_Ok; cbv beta iota zeta).

(** ** Arrays *)

Lemma load_in_bounds (a : list Z) (off : Z) :
  0 <= off < Z.of_nat (length a) →
  ∃ c, load a off = Ok c ∧ a !! Z.to_nat off = Some c.
Proof.
  intros Hoff. unfold load.
  destruct (Z.ltb_spec off 0) as [?|_]; [lia|].
  destruct (lookup_lt_is_Some_2 a (Z.to_nat off)) as [c Hc]; [lia|].
  rewrite Hc. eauto.
Qed.

Lemma store_in_bounds (a : list Z) (off c : Z) :
  0 <= off < Z.of_nat (length a) →
  store a off c = Ok (<[Z.to_nat off := c]> a).
Proof.
  intros Hoff. unfold store.
  destruct (Z.ltb_spec off 0) as [?|_]; [lia|].
  destruct (lookup_lt_is_Some_2 a (Z.to_nat off)) as [c' Hc]; [lia|].
  by rewrite Hc.
Qed.

Lemma BUF_SIZE_nat : Z.of_nat (Z.to_nat BUF_SIZE) = BUF_SIZE.
Proof. unfold BUF_SIZE. lia. Qed.

(** ** The capture path on an array placed at [start, stop) *)

Section capture.
Variables start stop : Z.
Hypothesis Hcap : stop - start = BUF_SIZE.

Lemma evict_total (fuel : nat) (data : list Z) (head tail : Z) :
  sized data → start <= head < stop → start <= tail < stop →
  dist start stop tail head <= Z.of_nat fuel →
  ∃ t, evict fuel data start stop head tail = Ok t ∧ start <= t < stop.
Proof.
  unfold sized. intros Hlen Hh. revert tail.
  induction fuel as [|fuel IH]; intros tail Ht Hd.
  { unfold dist in Hd. destruct (Z.ltb_spec tail head); lia. }
  destruct (load_in_bounds data (tail - start)) as (c & Hc & _); [lia|].
  simpl. rewrite Hc. simpl.
  destruct (Z.eqb_spec (tail + 1) stop) as [Hw|Hw].
  - destruct (Z.eqb_spec start head); [eexists; split; [done|lia]|].
    destruct (c =? NL); [eexists; split; [done|lia]|].
    apply IH; [lia|]. unfold dist in *.
    destruct (Z.ltb_spec tail head), (Z.ltb_spec start head); lia.
  - destruct (Z.eqb_spec (tail + 1) head); [eexists; split; [done|lia]|].
    destruct (c =? NL); [eexists; split; [done|lia]|].
    apply IH; [lia|]. unfold dist in *.
    destruct (Z.ltb_spec tail head), (Z.ltb_spec (tail + 1) head); lia.
Qed.

Lemma write_loop_cons (c : Z) (str : list Z) (st : list Z * Z * Z) :
  write_loop start stop st (c :: str)
  = write_char start stop st c ≫= λ st', write_loop start stop st' str.
Proof. reflexivity. Qed.

Lemma write_char_total (st : list Z * Z * Z) (c : Z) :
  locals_ok start stop st →
  ∃ st', write_char start stop st c = Ok st' ∧ locals_ok start stop st'.
Proof.
  destruct st as [[data head] tail]. unfold sized.
  intros (Hlen & Hh & Ht). unfold locals_ok, sized in *. unfold write_char.
  rewrite store_in_bounds by lia. run.
  set (data' := <[Z.to_nat (head - start) := c]> data).
  assert (Z.of_nat (length data') = BUF_SIZE) as Hlen'
    by (unfold data'; by rewrite length_insert).
  set (head' := if head + 1 =? stop then start else head + 1).
  assert (start <= head' < stop) as Hh'
    by (unfold head'; destruct (Z.eqb_spec (head + 1) stop); lia).
  destruct (Z.eqb_spec head' tail) as [Heq|Hne];
    [|by eexists; split; [done|]].
  destruct (evict_total evict_fuel data' head' tail) as (t & Ht' & Hr);
    [done|done|done| |].
  { unfold dist, evict_fuel. rewrite BUF_SIZE_nat.
    destruct (Z.ltb_spec tail head'); lia. }
  rewrite Ht'. run. by eexists; split; [done|].
Qed.

Lemma write_loop_total (str : list Z) (st : list Z * Z * Z) :
  locals_ok start stop st →
  ∃ st', write_loop start stop st str = Ok st' ∧ locals_ok start stop st'.
Proof.
  revert st. induction str as [|c str IH]; intros st Hst; [by eexists|].
  destruct (write_char_total st c Hst) as (st1 & H1 & Hok1).
  rewrite write_loop_cons, H1. run. by apply IH.
Qed.

(** On an array without a newline the scan runs until it meets [head]. *)
Lemma evict_no_newline (fuel : nat) (data : list Z) (head tail : Z) :
  sized data → Forall (λ c, c ≠ NL) data →
  start <= head < stop → start <= tail < stop →
  dist start stop tail head <= Z.of_nat fuel →
  evict fuel data start stop head tail = Ok head.
Proof.
  unfold sized. intros Hlen Hnl Hh. revert tail.
  induction fuel as [|fuel IH]; intros tail Ht Hd.
  { unfold dist in Hd. destruct (Z.ltb_spec tail head); lia. }
  destruct (load_in_bounds data (tail - start)) as (c & Hc & Hlk); [lia|].
  simpl. rewrite Hc. run.
  assert ((c =? NL) = false) as ->.
  { apply Z.eqb_neq. eapply (Forall_lookup_1 _ _ _ _ Hnl Hlk). }
  destruct (Z.eqb_spec (tail + 1) stop) as [Hw|Hw].
  - destruct (Z.eqb_spec start head) as [->|?]; [done|].
    apply IH; [lia|]. unfold dist in *.
    destruct (Z.ltb_spec tail head), (Z.ltb_spec start head); lia.
  - destruct (Z.eqb_spec (tail + 1) head) as [->|?]; [done|].
    apply IH; [lia|]. unfold dist in *.
    destruct (Z.ltb_spec tail head), (Z.ltb_spec (tail + 1) head); lia.
Qed.

(** While [head] has not come round to [tail], a byte is stored and
    nothing else happens. *)
Lemma write_char_no_evict (data : list Z) (n : nat) (c : Z) :
  sized data → Z.of_nat n + 1 < BUF_SIZE →
  write_char start stop (data, start + Z.of_nat n, start) c
  = Ok (<[n := c]> data, start + Z.of_nat (S n), start).
Proof.
  unfold sized. intros Hlen Hn. unfold write_char.
  rewrite store_in_bounds by lia. run.
  replace (Z.to_nat (start + Z.of_nat n - start)) with n by lia.
  destruct (Z.eqb_spec (start + Z.of_nat n + 1) stop); [lia|].
  destruct (Z.eqb_spec (start + Z.of_nat n + 1) start); [lia|].
  do 3 f_equal. lia.
Qed.

(** Writing [str] behind [n] bytes already there, when all of it fits
    below the last cell: the bytes land in a row and [tail] stays. *)
Lemma write_loop_linear (str : list Z) (data : list Z) (n : nat) :
  sized data → Z.of_nat (n + length str) < BUF_SIZE →
  write_loop start stop (data, start + Z.of_nat n, start) str
  = Ok (take n data ++ str ++ drop (n + length str) data,
        start + Z.of_nat (n + length str), start).
Proof.
  revert data n. induction str as [|c str IH]; intros data n Hlen Hn.
  { simpl. rewrite Nat.add_0_r, take_drop. done. }
  simpl in Hn. rewrite write_loop_cons.
  rewrite write_char_no_evict by (done || lia). run.
  assert ((n < length data)%nat) as Hlt by (unfold sized in Hlen; lia).
  rewrite IH; [|by unfold sized in *; rewrite length_insert|simpl; lia].
  rewrite (take_S_r _ _ c) by (by apply list_lookup_insert_eq).
  rewrite take_insert_ge by lia.
  rewrite drop_insert_lt by lia.
  rewrite <- (assoc_L (++)). simpl.
  replace (S (n + length str)) with (n + S (length str))%nat by lia.
  done.
Qed.

(** [head] moves one cell per byte, going round at the end, whether or not
    the byte starts an eviction. *)
Lemma write_char_head (data : list Z) (head tail c : Z)
    (data' : list Z) (head' tail' : Z) :
  locals_ok start stop (data, head, tail) →
  write_char start stop (data, head, tail) c = Ok (data', head', tail') →
  head' = if head + 1 =? stop then start else head + 1.
Proof.
  intros (Hlen & Hh & Ht). unfold sized in Hlen. unfold write_char.
  rewrite store_in_bounds by lia. run.
  destruct (_ =? tail); [|by intros [= _ <- _]].
  destruct (evict _ _ _ _ _ _) as [t|e]; [|done].
  run. by intros [= _ <- _].
Qed.

Lemma write_loop_head (str : list Z) (data : list Z) (head tail : Z)
    (data' : list Z) (head' tail' : Z) :
  locals_ok start stop (data, head, tail) →
  write_loop start stop (data, head, tail) str = Ok (data', head', tail') →
  head' = start + (head - start + Z.of_nat (length str)) mod BUF_SIZE.
Proof.
  revert data head tail.
  induction str as [|c str IH]; intros data head tail Hok.
  { destruct Hok as (_ & Hh & _). intros [= _ <- _]. simpl.
    rewrite Z.add_0_r, Z.mod_small; lia. }
  destruct (write_char_total (data, head, tail) c Hok)
    as ([[d1 h1] t1] & H1 & Hok1).
  rewrite write_loop_cons, H1. run. intros Hloop.
  rewrite (IH d1 h1 t1 Hok1 Hloop).
  rewrite (write_char_head _ _ _ _ _ _ _ Hok H1).
  destruct Hok as (_ & Hh & _). f_equal.
  replace (Z.of_nat (length (c :: str))) with (1 + Z.of_nat (length str))
    by (simpl; lia).
  destruct (Z.eqb_spec (head + 1) stop).
  - replace (head - start + (1 + Z.of_nat (length str)))
      with (start - start + Z.of_nat (length str) + 1 * BUF_SIZE) by lia.
    by rewrite Z.mod_add.
  - f_equal. lia.
Qed.

Lemma write_loop_app (s1 s2 : list Z) (st : list Z * Z * Z) :
  write_loop start stop st (s1 ++ s2) =
  write_loop start stop st s1 ≫= λ st', write_loop start stop st' s2.
Proof.
  revert st. induction s1 as [|c s1 IH]; intros st; [done|].
  rewrite <- app_comm_cons, !write_loop_cons.
  destruct (write_char start stop st c) as [st1|e]; [|done].
  run. apply IH.
Qed.

End capture.

Lemma ring_buffer_write_total (r : rbuf.t) (str : list Z) :
  rbuf_ok r →
  ∃ r', ring_buffer_write r str = Ok r' ∧ rbuf_ok r'
        ∧ rbuf.addr r' = rbuf.addr r ∧ rbuf.magic r' = rbuf.magic r.
Proof.
  intros (Hlen & Hh & Ht). unfold in_storage in *.
  destruct (write_loop_total (rbuf.addr r) (rbuf.addr r + BUF_SIZE) ltac:(lia)
              str (rbuf.data r, rbuf.head r, rbuf.tail r))
    as ([[d h] t] & Hw & Hl' & Hh' & Ht'); [done|].
  unfold ring_buffer_write. rewrite Hw. run.
  eexists. split; [done|].
  unfold rbuf_ok, in_storage. simpl. repeat split; first done; lia.
Qed.

Lemma window_length (r : rbuf.t) :
  sized (rbuf.data r) → in_storage r (rbuf.tail r) →
  Z.of_nat (length (window r)) = span r.
Proof.
  unfold sized, in_storage, window, span. intros Hlen Ht.
  pose proof (Z.mod_pos_bound (rbuf.head r - rbuf.tail r) BUF_SIZE eq_refl).
  rewrite length_take, length_drop, length_app. lia.
Qed.

(** Where a call leaves the cursors: [head] has moved by the bytes written
    and [tail] by the bytes that left the window, each going round. *)
Lemma ring_buffer_write_cursors (r r' : rbuf.t) (str : list Z) :
  rbuf_ok r → ring_buffer_write r str = Ok r' → rbuf_ok r' →
  rbuf.addr r' = rbuf.addr r →
  rbuf.head r'
  = rbuf.addr r
    + (rbuf.head r - rbuf.addr r + Z.of_nat (length str)) mod BUF_SIZE
  ∧ rbuf.tail r'
    = rbuf.addr r
      + (rbuf.tail r - rbuf.addr r
         + (Z.of_nat (length (window r)) + Z.of_nat (length str)
            - Z.of_nat (length (window r')))) mod BUF_SIZE.
Proof.
  intros Hok Hw Hok' Haddr.
  assert (rbuf.head r'
          = rbuf.addr r
            + (rbuf.head r - rbuf.addr r + Z.of_nat (length str)) mod BUF_SIZE)
    as Hhead.
  { revert Hw. unfold ring_buffer_write.
    destruct (write_loop _ _ _ str) as [[[d h] t]|e] eqn:Hloop; [|done].
    run. intros [= <-]. simpl.
    destruct Hok as (Hlen & Hh & Ht). unfold in_storage in *.
    eapply (write_loop_head (rbuf.addr r) (rbuf.addr r + BUF_SIZE));
      [lia| |exact Hloop].
    unfold locals_ok. split; [done|]. split; lia. }
  split; [done|].
  destruct Hok as (Hlen & Hh & Ht), Hok' as (Hlen' & Hh' & Ht').
  rewrite (window_length r), (window_length r') by done.
  unfold in_storage, span, BUF_SIZE in *. rewrite Haddr in *.
  rewrite Hhead. clear Hhead Hw.
  set (n := Z.of_nat (length str)).
  generalize dependent n. intros n.
  Z.div_mod_to_equations. lia.
Qed.

(** C8. The cursors [head] and [tail] always point into
    [storage_start, storage_start + C): [ring_buffer_init] puts both at
    [storage_start], and a call of [ring_buffer_write] on a state where
    they are inside, with any string of any length, completes (no access
    outside the array, the eviction scan ends) and leaves them inside.
    Each cursor moves forward modulo [C], so that on reaching
    [storage_start + C] it is back at [storage_start]: [head] by the bytes
    written, [tail] by the bytes that left the window. *)
Theorem cursors_stay_in_storage (r0 r : rbuf.t) (str : list Z) :
  sized (rbuf.data r0) → rbuf_ok r →
  (rbuf_ok (ring_buffer_init r0)
   ∧ rbuf.head (ring_buffer_init r0) = rbuf.addr r0
   ∧ rbuf.tail (ring_buffer_init r0) = rbuf.addr r0)
  ∧ ∃ r',
      ring_buffer_write r str = Ok r' ∧ rbuf_ok r'
      ∧ rbuf.addr r' = rbuf.addr r
      ∧ rbuf.head r'
        = rbuf.addr r
          + (rbuf.head r - rbuf.addr r + Z.of_nat (length str)) mod BUF_SIZE
      ∧ rbuf.tail r'
        = rbuf.addr r
          + (rbuf.tail r - rbuf.addr r
             + (Z.of_nat (length (window r)) + Z.of_nat (length str)
                - Z.of_nat (length (window r')))) mod BUF_SIZE.
Proof.
  intros Hlen Hok. split.
  - split; [|done]. unfold rbuf_ok, in_storage, ring_buffer_init; simpl.
    unfold BUF_SIZE. repeat split; first done; lia.
  - destruct (ring_buffer_write_total r str Hok) as (r' & Hw & Hok' & Haddr & _).
    exists r'. split; [done|]. split; [done|]. split; [done|].
    by apply (ring_buffer_write_cursors r r' str).
Qed.

Lemma edge_ring_ok : rbuf_ok edge_ring.
Proof. repeat split; by vm_compute. Qed.

Lemma cursors_stay_in_storage_witness :
  (rbuf_ok (ring_buffer_init cold_block)
   ∧ rbuf.head (ring_buffer_init cold_block) = rbuf.addr cold_block
   ∧ rbuf.tail (ring_buffer_init cold_block) = rbuf.addr cold_block)
  ∧ ∃ r',
      ring_buffer_write edge_ring [NL] = Ok r' ∧ rbuf_ok r'
      ∧ rbuf.addr r' = rbuf.addr edge_ring
      ∧ rbuf.head r'
        = rbuf.addr edge_ring
          + (rbuf.head edge_ring - rbuf.addr edge_ring
             + Z.of_nat (length [NL])) mod BUF_SIZE
      ∧ rbuf.tail r'
        = rbuf.addr edge_ring
          + (rbuf.tail edge_ring - rbuf.addr edge_ring
             + (Z.of_nat (length (window edge_ring)) + Z.of_nat (length [NL])
                - Z.of_nat (length (window r')))) mod BUF_SIZE.
Proof.
  apply cursors_stay_in_storage.
  - by vm_compute.
  - exact edge_ring_ok.
Defined.

(** On [edge_ring] the byte goes into the last cell and [head] comes round
    to the start of the storage, where [tail] is; the scan then takes
    [tail] through every cell and round to the start as well. *)
Example edge_ring_wraps :
  (ring_buffer_write edge_ring [NL] ≫= λ r, Ok (rbuf.head r, rbuf.tail r))
  = Ok (rbuf.addr edge_ring, rbuf.addr edge_ring).
Proof. vm_compute. reflexivity. Qed.

(** ** The retained window after writes that fit *)

Lemma ring_buffer_write_app (r : rbuf.t) (s1 s2 : list Z) :
  ring_buffer_write r (s1 ++ s2)
  = ring_buffer_write r s1 ≫= λ r1, ring_buffer_write r1 s2.
Proof.
  unfold ring_buffer_write. rewrite write_loop_app.
  destruct (write_loop _ _ _ s1) as [[[d h] t]|e]; [|done].
  by run.
Qed.

Lemma ring_buffer_write_nil (r : rbuf.t) : ring_buffer_write r [] = Ok r.
Proof. by destruct r. Qed.

(** A sequence of calls stores what one call with all the bytes stores. *)
Lemma ring_buffer_writes_concat (chunks : list (list Z)) (r : rbuf.t) :
  ring_buffer_writes r chunks = ring_buffer_write r (concat chunks).
Proof.
  revert r. induction chunks as [|str chunks IH]; intros r.
  { by rewrite ring_buffer_write_nil. }
  simpl. rewrite ring_buffer_write_app.
  destruct (ring_buffer_write r str) as [r1|e]; [|done].
  run. apply IH.
Qed.

(** From a state with both cursors at the start of the storage. *)
Lemma ring_buffer_write_from_start (a m : Z) (data str : list Z) :
  sized data → Z.of_nat (length str) < BUF_SIZE →
  ring_buffer_write (rbuf.mk a data a a m) str
  = Ok (rbuf.mk a (str ++ drop (length str) data)
                (a + Z.of_nat (length str)) a m).
Proof.
  intros Hlen Hstr. unfold ring_buffer_write. simpl.
  pose proof (write_loop_linear a (a + BUF_SIZE) ltac:(lia) str data 0) as Hw.
  rewrite Z.add_0_r in Hw. rewrite Hw by (done || simpl; lia). by run.
Qed.

Lemma window_from_start (a m : Z) (str rest : list Z) :
  Z.of_nat (length str) < BUF_SIZE →
  window (rbuf.mk a (str ++ rest) (a + Z.of_nat (length str)) a m) = str.
Proof.
  intros Hstr. unfold window, span. simpl.
  replace (a + Z.of_nat (length str) - a) with (Z.of_nat (length str)) by lia.
  rewrite Z.mod_small by lia.
  rewrite Z.sub_diag, Nat2Z.id. change (Z.to_nat 0) with 0%nat.
  rewrite drop_0, <- (assoc_L (++)). by rewrite take_app_length.
Qed.

(** C1, as the code has it.  For every sequence of calls of
    [ring_buffer_write] on a freshly initialised ring buffer whose total
    length is strictly below the capacity [BUF_SIZE], the retained window
    (the bytes from [tail] to [head], read circularly) is the concatenation
    of the bytes written, in order.  (At exactly [BUF_SIZE] bytes [head]
    meets [tail] and the eviction scan runs.) *)
Theorem window_retains_writes (r : rbuf.t) (chunks : list (list Z)) :
  sized (rbuf.data r) →
  Z.of_nat (length (concat chunks)) < BUF_SIZE →
  retains_all r chunks.
Proof.
  intros Hlen Htot. unfold retains_all.
  rewrite ring_buffer_writes_concat. unfold ring_buffer_init.
  rewrite ring_buffer_write_from_start by done.
  eexists. split; [done|]. by apply window_from_start.
Qed.

Lemma window_retains_writes_witness :
  retains_all cold_block [[104; 101; 108; 108; 111; 10]; [119; 111; 114; 108; 100]].
Proof.
  apply window_retains_writes.
  - vm_compute. reflexivity.
  - vm_compute. reflexivity.
Defined.

(** C1 as stated fails at a total of exactly [BUF_SIZE] bytes: one call
    with [BUF_SIZE] letters leaves [head == tail], an empty window. *)
Lemma full_capacity_not_retained :
  sized (rbuf.data cold_block)
  ∧ Z.of_nat (length (concat [full_line])) <= BUF_SIZE
  ∧ ¬ retains_all cold_block [full_line].
Proof.
  split; [by vm_compute|]. split; [by vm_compute|].
  intros (r' & Hw & Hwin).
  assert (match ring_buffer_writes (ring_buffer_init cold_block) [full_line] with
          | Ok r' => window r'
          | Err _ => []
          end = []) as Hrun by (vm_compute; reflexivity).
  rewrite Hw, Hwin in Hrun. apply (f_equal length) in Hrun.
  vm_compute in Hrun. discriminate.
Qed.

(** ** A line that fills the whole buffer *)

(** The last byte of a line of [BUF_SIZE] bytes without a newline brings
    [head] round to [tail]; the scan finds no newline and stops at [head]. *)
Lemma ring_buffer_write_full_line (a m : Z) (data line : list Z) :
  sized data → sized line → Forall (λ c, c ≠ NL) line →
  ring_buffer_write (rbuf.mk a data a a m) line = Ok (rbuf.mk a line a a m).
Proof.
  intros Hdata Hline Hnl.
  destruct line as [|c front _] using rev_ind; [by unfold sized in Hline|].
  assert (Z.of_nat (length front) = BUF_SIZE - 1) as Hfront
    by (unfold sized in Hline; rewrite length_app in Hline; simpl in Hline; lia).
  rewrite ring_buffer_write_app.
  rewrite ring_buffer_write_from_start by (done || lia). run.
  unfold ring_buffer_write. simpl rbuf.addr. simpl rbuf.data.
  simpl rbuf.head. simpl rbuf.tail. simpl rbuf.magic.
  unfold write_loop, write_char.
  set (d1 := front ++ drop (length front) data).
  assert (Z.of_nat (length d1) = BUF_SIZE) as Hd1.
  { unfold d1. rewrite length_app, length_drop. unfold sized in Hdata. lia. }
  rewrite store_in_bounds by lia. run.
  replace (<[Z.to_nat (a + Z.of_nat (length front) - a) := c]> d1)
    with (front ++ [c]).
  2:{ unfold d1.
      replace (Z.to_nat (a + Z.of_nat (length front) - a))
        with (length front + 0)%nat by lia.
      rewrite insert_app_r.
      destruct (drop (length front) data) as [|x tl] eqn:Hdrop.
      - apply (f_equal length) in Hdrop. rewrite length_drop in Hdrop.
        unfold sized in Hdata. simpl in Hdrop. lia.
      - assert (tl = []) as ->; [|done].
        apply (f_equal length) in Hdrop. rewrite length_drop in Hdrop.
        unfold sized in Hdata. simpl in Hdrop.
        apply nil_length_inv. lia. }
  destruct (Z.eqb_spec (a + Z.of_nat (length front) + 1) (a + BUF_SIZE)); [|lia].
  rewrite Z.eqb_refl.
  rewrite (evict_no_newline a (a + BUF_SIZE) ltac:(lia));
    [by run|done|done|lia|lia|].
  unfold dist, evict_fuel. rewrite BUF_SIZE_nat.
  destruct (Z.ltb_spec a a); lia.
Qed.

(** C2, as the code has it.  When a freshly initialised ring buffer takes in
    one line of exactly [BUF_SIZE] bytes without a newline, the eviction
    scan started by the last byte of the line runs all the way round to
    [head]: the cursors meet at the start of the storage and the retained
    window is empty.  The bytes written next, up to [BUF_SIZE - 1] of them,
    are stored without any eviction: [tail] stays where it is and the
    window holds exactly those bytes. *)
Theorem full_line_dropped_at_once (r : rbuf.t) (line rest : list Z) :
  sized (rbuf.data r) → sized line → Forall (λ c, c ≠ NL) line →
  Z.of_nat (length rest) < BUF_SIZE →
  ∃ r1 r2,
    ring_buffer_write (ring_buffer_init r) line = Ok r1
    ∧ rbuf.head r1 = rbuf.addr r ∧ rbuf.tail r1 = rbuf.addr r
    ∧ window r1 = []
    ∧ ring_buffer_write r1 rest = Ok r2
    ∧ rbuf.tail r2 = rbuf.tail r1
    ∧ rbuf.head r2 = rbuf.addr r + Z.of_nat (length rest)
    ∧ window r2 = rest.
Proof.
  intros Hdata Hline Hnl Hrest. unfold ring_buffer_init.
  rewrite ring_buffer_write_full_line by done.
  do 2 eexists. split; [done|]. simpl.
  split; [done|]. split; [done|]. split.
  { unfold window, span. simpl. by rewrite Z.sub_diag. }
  rewrite ring_buffer_write_from_start by done.
  split; [done|]. simpl. split; [done|]. split; [done|].
  by apply window_from_start.
Qed.

Lemma full_line_dropped_at_once_witness :
  ∃ r1 r2,
    ring_buffer_write (ring_buffer_init cold_block) full_line = Ok r1
    ∧ rbuf.head r1 = rbuf.addr cold_block ∧ rbuf.tail r1 = rbuf.addr cold_block
    ∧ window r1 = []
    ∧ ring_buffer_write r1 [98; 99] = Ok r2
    ∧ rbuf.tail r2 = rbuf.tail r1
    ∧ rbuf.head r2 = rbuf.addr cold_block + Z.of_nat (length [98; 99])
    ∧ window r2 = [98; 99].
Proof.
  apply full_line_dropped_at_once.
  - vm_compute. reflexivity.
  - vm_compute. reflexivity.
  - apply Forall_replicate. vm_compute. discriminate.
  - vm_compute. reflexivity.
Defined.

(** C2 as stated fails: after the line of [BUF_SIZE] letters the next byte
    moves [head] one cell and leaves [tail] where it was, so no byte is
    dropped for the incoming byte. *)
Lemma full_line_no_single_byte_drop :
  holds_full_line (rbuf.mk 4096 full_line 4096 4096 BUF_MAGIC)
  ∧ ¬ drops_one_byte (rbuf.mk 4096 full_line 4096 4096 BUF_MAGIC) 98.
Proof.
  split.
  - exists cold_block, full_line.
    split; [by vm_compute|]. split; [by vm_compute|].
    split; [apply Forall_replicate; by vm_compute|].
    vm_compute. reflexivity.
  - intros (r2 & Hw & Htail & _).
    assert (match ring_buffer_write (rbuf.mk 4096 full_line 4096 4096 BUF_MAGIC) [98] with
            | Ok r2 => rbuf.tail r2
            | Err _ => 0
            end = 4096) as Hrun by (vm_compute; reflexivity).
    rewrite Hw, Htail in Hrun. vm_compute in Hrun. discriminate.
Qed.

(** ** The sanitizer *)

(** A property checked on each of the 256 bytes holds of every byte. *)
Lemma all_chars (P : Z → bool) :
  forallb (λ n, P (Z.of_nat n)) (seq 0 256) = true →
  ∀ c, is_char c → P c = true.
Proof.
  intros Hall c [Hlo Hhi].
  rewrite forallb_forall in Hall.
  specialize (Hall (Z.to_nat c)). rewrite Z2Nat.id in Hall by done.
  apply Hall, in_seq. lia.
Qed.

Lemma sanitize_refines_spec (c : Z) : is_char c → sanitize c = sanitize_spec c.
Proof.
  intros Hc. apply Z.eqb_eq.
  by apply (all_chars (λ c, sanitize c =? sanitize_spec c)).
Qed.

Lemma sanitize_printable (c : Z) : is_char c → printable (sanitize c).
Proof.
  intros Hc.
  pose proof (all_chars
    (λ c, (sanitize c =? NL) || ((0x20 <=? sanitize c) && (sanitize c <=? 0x7F)))
    eq_refl c Hc) as H.
  unfold printable.
  apply orb_prop in H as [?%Z.eqb_eq|[?%Z.leb_le ?%Z.leb_le]%andb_prop];
    [by left|by right].
Qed.

(** Sanitizing what is already sanitized changes nothing. *)
Lemma sanitize_idempotent (c : Z) : is_char c → sanitize (sanitize c) = sanitize c.
Proof.
  intros Hc. apply Z.eqb_eq.
  by apply (all_chars (λ c, sanitize (sanitize c) =? sanitize c)).
Qed.

(** C5. For every byte [b] the sanitizer applies two rules in order: a byte
    with the high bit set ([b >= 0x80]) has it cleared and becomes
    [b - 0x80]; if the result is a control character ([< 0x20]) other than
    newline ([0x0A]), bit [0x20] is set on it; newline passes unchanged.
    So [0x01] maps to [0x21], [0x0A] to [0x0A] and [0xFF] to [0x7F]. *)
Theorem sanitize_rules (b : Z) :
  is_char b →
  sanitize b = sanitize_spec b
  ∧ (0x80 <= b → sanitize b = sanitize (b - 0x80))
  ∧ (b < 0x20 → b ≠ 0x0A → sanitize b = Z.lor b 0x20)
  ∧ (0x20 <= b < 0x80 ∨ b = 0x0A → sanitize b = b)
  ∧ sanitize 0x01 = 0x21 ∧ sanitize 0x0A = 0x0A ∧ sanitize 0xFF = 0x7F.
Proof.
  intros Hb. split; [by apply sanitize_refines_spec|].
  split; [|split; [|split; [|done]]].
  - intros Hhi.
    pose proof (all_chars
      (λ b, (b <? 0x80) || (sanitize b =? sanitize (b - 0x80))) eq_refl b Hb) as H.
    cbv beta in H.
    apply orb_prop in H as [?%Z.ltb_lt|?%Z.eqb_eq]; [lia|done].
  - intros Hlo Hnl.
    pose proof (all_chars
      (λ b, (0x20 <=? b) || (b =? 0x0A) || (sanitize b =? Z.lor b 0x20))
      eq_refl b Hb) as H.
    cbv beta in H.
    apply orb_prop in H as [[?%Z.leb_le|?%Z.eqb_eq]%orb_prop|?%Z.eqb_eq];
      [lia|done|done].
  - intros Hmid.
    pose proof (all_chars
      (λ b, (b <? 0x20) && negb (b =? 0x0A) || (0x80 <=? b) || (sanitize b =? b))
      eq_refl b Hb) as H.
    cbv beta in H.
    apply orb_prop in H as [[[?%Z.ltb_lt ?%negb_true_iff%Z.eqb_neq]%andb_prop
                            |?%Z.leb_le]%orb_prop|?%Z.eqb_eq];
      [lia|lia|done].
Qed.

Lemma sanitize_rules_witness :
  sanitize 0x9B = sanitize_spec 0x9B
  ∧ (0x80 <= 0x9B → sanitize 0x9B = sanitize (0x9B - 0x80))
  ∧ (0x9B < 0x20 → 0x9B ≠ 0x0A → sanitize 0x9B = Z.lor 0x9B 0x20)
  ∧ (0x20 <= 0x9B < 0x80 ∨ 0x9B = 0x0A → sanitize 0x9B = 0x9B)
  ∧ sanitize 0x01 = 0x21 ∧ sanitize 0x0A = 0x0A ∧ sanitize 0xFF = 0x7F.
Proof. apply sanitize_rules. unfold is_char. lia. Defined.

(** ** The snapshot builder *)

Lemma span_cases (h t : Z) :
  0 <= h < BUF_SIZE → 0 <= t < BUF_SIZE →
  (h - t) mod BUF_SIZE = if h <? t then BUF_SIZE + h - t else h - t.
Proof.
  intros Hh Ht. destruct (Z.ltb_spec h t).
  - symmetry. apply (Z.mod_unique_pos _ _ (-1)); lia.
  - apply Z.mod_small. lia.
Qed.

Lemma uintptr_in_storage (a p : Z) :
  0 <= a → a + BUF_SIZE <= 2 ^ 64 → ptr p →
  uintptr_t (p - a) < BUF_SIZE ↔ a <= p < a + BUF_SIZE.
Proof.
  unfold uintptr_t, u64, ptr, BUF_SIZE. intros Ha Hb Hp.
  destruct (Z.le_gt_cases a p).
  - rewrite Z.mod_small by lia. lia.
  - rewrite <- (Z.mod_unique_pos (p - a) (2 ^ 64) (-1) (p - a + 2 ^ 64)) by lia.
    lia.
Qed.

Lemma ring_valid_spec (r : rbuf.t) :
  ring_valid r = true
  ↔ rbuf.magic r = BUF_MAGIC
    ∧ uintptr_t (rbuf.head r - rbuf.addr r) < BUF_SIZE
    ∧ uintptr_t (rbuf.tail r - rbuf.addr r) < BUF_SIZE.
Proof.
  unfold ring_valid.
  destruct (Z.eqb_spec (rbuf.magic r) BUF_MAGIC),
    (Z.leb_spec BUF_SIZE (uintptr_t (rbuf.head r - rbuf.addr r))),
    (Z.leb_spec BUF_SIZE (uintptr_t (rbuf.tail r - rbuf.addr r)));
  simpl; split; (done || lia).
Qed.

Lemma ring_valid_in_storage (r : rbuf.t) :
  rbuf_typed r → ring_valid r = true →
  in_storage r (rbuf.head r) ∧ in_storage r (rbuf.tail r).
Proof.
  intros (_ & Ha & Hb & Hh & Ht) (_ & Hvh & Hvt)%ring_valid_spec.
  unfold in_storage. split; by apply uintptr_in_storage.
Qed.

Lemma s32_small (x : Z) : 0 <= x <= BUF_SIZE → s32 x = x.
Proof. unfold s32, BUF_SIZE. intros Hx. rewrite Z.mod_small; lia. Qed.

Section copying.
Variables start stop : Z.
Hypothesis Hcap : stop - start = BUF_SIZE.

(** With [n] bytes between [tail] and [head], the loop stores their
    sanitized images at [dst .. dst + n - 1] and touches nothing else. *)
Lemma copy_loop_window (n : nat) :
  ∀ (fuel : nat) (src : list Z) (head tail : Z) (k : nat) (out : list Z),
    sized src → sized out →
    start <= head < stop → start <= tail < stop →
    (head - tail) mod BUF_SIZE = Z.of_nat n →
    (n < fuel)%nat → Z.of_nat (k + n) <= BUF_SIZE →
    copy_loop fuel src start stop head tail (Z.of_nat k) out
    = Ok (take k out
          ++ (sanitize <$> take n (drop (Z.to_nat (tail - start)) (src ++ src)))
          ++ drop (k + n) out).
Proof.
  induction n as [|n IH]; intros fuel src head tail k out Hsrc Hout Hh Ht Hn Hf Hk;
    (destruct fuel as [|fuel]; [lia|]);
    replace (head - tail) with (head - start - (tail - start)) in Hn by lia;
    rewrite span_cases in Hn by lia.
  - destruct (Z.ltb_spec (head - start) (tail - start)); [lia|].
    simpl. destruct (Z.eqb_spec head tail); [|lia].
    rewrite Nat.add_0_r, take_drop. done.
  - assert (head ≠ tail) as Hne
      by (destruct (Z.ltb_spec (head - start) (tail - start)); lia).
    unfold sized in Hsrc, Hout.
    destruct (load_in_bounds src (tail - start)) as (c & Hc & Hlk); [lia|].
    simpl copy_loop. destruct (Z.eqb_spec head tail); [done|].
    rewrite Hc. run.
    rewrite store_in_bounds by lia. run. rewrite Nat2Z.id.
    replace (Z.of_nat k + 1) with (Z.of_nat (S k)) by lia.
    assert ((src ++ src) !! Z.to_nat (tail - start) = Some c) as Hlk2
      by (by apply lookup_app_l_Some).
    rewrite (drop_S _ _ _ Hlk2). rewrite firstn_cons, fmap_cons.
    assert ((k < length out)%nat) as Hklt by lia.
    rewrite IH; [|done|by unfold sized; rewrite length_insert| lia | | |lia|lia].
    + rewrite (take_S_r _ _ (sanitize c)) by (by apply list_lookup_insert_eq).
      rewrite take_insert_ge by lia. rewrite drop_insert_lt by lia.
      rewrite <- (assoc_L (++)).
      replace (S k + n)%nat with (k + S n)%nat by lia.
      do 2 f_equal. simpl. do 2 f_equal.
      destruct (Z.eqb_spec (tail + 1) stop) as [Hw|Hw].
      * rewrite Z.sub_diag. simpl.
        replace (S (Z.to_nat (tail - start))) with (length src) by lia.
        change (Z.to_nat 0) with 0%nat.
        rewrite drop_0, drop_app_length, take_app_le by lia. done.
      * replace (Z.to_nat (tail + 1 - start))
          with (S (Z.to_nat (tail - start))) by lia.
        done.
    + destruct (Z.eqb_spec (tail + 1) stop); lia.
    + destruct (Z.eqb_spec (tail + 1) stop) as [Hw|Hw].
      * replace (head - start) with (head - start - (start - start)) by lia.
        rewrite span_cases by lia.
        destruct (Z.ltb_spec (head - start) (tail - start)),
          (Z.ltb_spec (head - start) (start - start)); lia.
      * replace (head - (tail + 1))
          with (head - start - (tail + 1 - start)) by lia.
        rewrite span_cases by lia.
        destruct (Z.ltb_spec (head - start) (tail - start)),
          (Z.ltb_spec (head - start) (tail + 1 - start)); lia.
Qed.

End copying.

Lemma window_chars (r : rbuf.t) :
  Forall is_char (rbuf.data r) → Forall is_char (window r).
Proof.
  intros Hc. unfold window.
  apply Forall_take, Forall_drop, Forall_app. done.
Qed.

(** The result of [ring_buffer_copy] on content that passes the check. *)
Lemma ring_buffer_copy_valid (r : rbuf.t) (l : lbuf.t) :
  rbuf_typed r → sized (lbuf.data l) → ring_valid r = true →
  ring_buffer_copy r l
  = Ok (lbuf.mk ((sanitize <$> window r) ++ drop (Z.to_nat (span r)) (lbuf.data l))
                (span r))
  ∧ span r = (if rbuf.head r <? rbuf.tail r
              then BUF_SIZE - (rbuf.tail r - rbuf.head r)
              else rbuf.head r - rbuf.tail r)
  ∧ 0 <= span r < BUF_SIZE.
Proof.
  intros Htyped Hout Hvalid.
  destruct (ring_valid_in_storage r Htyped Hvalid) as [Hh Ht].
  destruct Htyped as (Hsrc & _). unfold in_storage in *.
  assert (span r = if rbuf.head r <? rbuf.tail r
                   then BUF_SIZE - (rbuf.tail r - rbuf.head r)
                   else rbuf.head r - rbuf.tail r) as Hspan.
  { unfold span.
    replace (rbuf.head r - rbuf.tail r)
      with (rbuf.head r - rbuf.addr r - (rbuf.tail r - rbuf.addr r)) by lia.
    rewrite span_cases by lia.
    destruct (Z.ltb_spec (rbuf.head r - rbuf.addr r) (rbuf.tail r - rbuf.addr r)),
      (Z.ltb_spec (rbuf.head r) (rbuf.tail r)); lia. }
  assert (0 <= span r < BUF_SIZE) as Hrange
    by (rewrite Hspan; destruct (Z.ltb_spec (rbuf.head r) (rbuf.tail r)); lia).
  split; [|done].
  unfold ring_buffer_copy. rewrite Hvalid. cbv beta iota zeta delta [negb].
  pose proof (copy_loop_window (rbuf.addr r) (rbuf.addr r + BUF_SIZE) ltac:(lia)
    (Z.to_nat (span r)) copy_fuel (rbuf.data r) (rbuf.head r) (rbuf.tail r)
    0%nat (lbuf.data l) Hsrc Hout Hh Ht) as Hloop.
  change (Z.of_nat 0) with 0 in Hloop.
  rewrite Hloop;
    [|fold (span r); lia|unfold copy_fuel, BUF_SIZE in *; lia|lia].
  run. rewrite take_0, app_nil_l, Nat.add_0_l. unfold window.
  do 2 f_equal. rewrite Hspan.
  destruct (Z.ltb_spec (rbuf.head r) (rbuf.tail r)); rewrite s32_small; lia.
Qed.

(** C3. When the validity check passes, [ring_buffer_copy] sets the
    snapshot length to [C - (tail - head)] if the tail offset is greater
    than the head offset and to [head - tail] otherwise, and copies exactly
    that many bytes: the bytes from [tail] to [head], read circularly, each
    passed through the sanitizer, one byte out for one byte in; the cells of
    the snapshot buffer behind them are not touched. *)
Theorem copy_length_and_content (r : rbuf.t) (l : lbuf.t) :
  rbuf_typed r → sized (lbuf.data l) → ring_valid r = true →
  ∃ l',
    ring_buffer_copy r l = Ok l'
    ∧ lbuf.count l'
      = (if rbuf.head r - rbuf.addr r <? rbuf.tail r - rbuf.addr r
         then BUF_SIZE - (rbuf.tail r - rbuf.head r)
         else rbuf.head r - rbuf.tail r)
    ∧ Z.of_nat (length (window r)) = lbuf.count l'
    ∧ snapshot l' = sanitize <$> window r
    ∧ length (snapshot l') = length (window r)
    ∧ drop (Z.to_nat (lbuf.count l')) (lbuf.data l')
      = drop (Z.to_nat (lbuf.count l')) (lbuf.data l).
Proof.
  intros Htyped Hout Hvalid.
  destruct (ring_buffer_copy_valid r l Htyped Hout Hvalid) as (Hcopy & Hspan & Hr).
  destruct (ring_valid_in_storage r Htyped Hvalid) as [_ Ht].
  pose proof (window_length r (proj1 Htyped) Ht) as Hwl.
  eexists. split; [done|]. unfold snapshot. simpl.
  assert (length (sanitize <$> window r) = Z.to_nat (span r)) as Hfl
    by (rewrite length_fmap; lia).
  split; [|split; [done|split; [|split]]].
  - rewrite Hspan.
    destruct (Z.ltb_spec (rbuf.head r) (rbuf.tail r)),
      (Z.ltb_spec (rbuf.head r - rbuf.addr r) (rbuf.tail r - rbuf.addr r)); lia.
  - by rewrite take_app_length'.
  - rewrite take_app_length' by done. by rewrite length_fmap.
  - by rewrite drop_app_length'.
Qed.

Lemma wrapped_ring_typed : rbuf_typed wrapped_ring.
Proof. repeat split; by vm_compute. Qed.

Lemma blank_sized : sized (lbuf.data blank).
Proof. by vm_compute. Qed.

Lemma copy_length_and_content_witness :
  ∃ l',
    ring_buffer_copy wrapped_ring blank = Ok l'
    ∧ lbuf.count l'
      = (if rbuf.head wrapped_ring - rbuf.addr wrapped_ring
            <? rbuf.tail wrapped_ring - rbuf.addr wrapped_ring
         then BUF_SIZE - (rbuf.tail wrapped_ring - rbuf.head wrapped_ring)
         else rbuf.head wrapped_ring - rbuf.tail wrapped_ring)
    ∧ Z.of_nat (length (window wrapped_ring)) = lbuf.count l'
    ∧ snapshot l' = sanitize <$> window wrapped_ring
    ∧ length (snapshot l') = length (window wrapped_ring)
    ∧ drop (Z.to_nat (lbuf.count l')) (lbuf.data l')
      = drop (Z.to_nat (lbuf.count l')) (lbuf.data blank).
Proof.
  apply copy_length_and_content.
  - exact wrapped_ring_typed.
  - exact blank_sized.
  - vm_compute. reflexivity.
Defined.

(** The round trip of the specification: ["hello\nworld"] written after a
    reset comes back unchanged, with length 11. *)
Example hello_world_round_trip :
  (ring_buffer_write (ring_buffer_init cold_block)
     [104; 101; 108; 108; 111; 10; 119; 111; 114; 108; 100]
   ≫= λ r, ring_buffer_copy r blank
   ≫= λ l, Ok (lbuf.count l, snapshot l))
  = Ok (11, [104; 101; 108; 108; 111; 10; 119; 111; 114; 108; 100]).
Proof. vm_compute. reflexivity. Qed.

(** Five bytes are copied from [wrapped_ring], across the wrap. *)
Example wrapped_ring_snapshot :
  (ring_buffer_copy wrapped_ring blank ≫= λ l, Ok (lbuf.count l, snapshot l))
  = Ok (5, [0x7F; 0x3B; 0x20; 0x0A; 0x27]).
Proof. vm_compute. reflexivity. Qed.

(** ** The validity check *)

Lemma ring_buffer_copy_invalid (r : rbuf.t) (l : lbuf.t) :
  ring_valid r = false → ring_buffer_copy r l = Ok (lbuf.mk (lbuf.data l) 0).
Proof. intros Hinv. unfold ring_buffer_copy. by rewrite Hinv. Qed.

(** An offset outside [0, C), held in a [ptrdiff_t], is not below [C] when
    read as an unsigned number. *)
Lemma uintptr_rejects (off : Z) :
  - 2 ^ 63 <= off < 2 ^ 63 → off < 0 ∨ BUF_SIZE <= off →
  BUF_SIZE <= uintptr_t off.
Proof.
  unfold uintptr_t, u64, BUF_SIZE. intros Hrange [Hneg|Hbig].
  - rewrite <- (Z.mod_unique_pos off (2 ^ 64) (-1) (off + 2 ^ 64)) by lia. lia.
  - rewrite Z.mod_small by lia. lia.
Qed.

(** C4. [ring_buffer_copy] takes the prior ring state as valid if and only
    if the stored marker equals the sentinel [0x4B4D5347] and the offsets of
    [head] and of [tail] from the start of the storage, read as unsigned
    numbers, are both strictly below the capacity.  When a check fails
    (marker mismatch, head offset equal to [C], tail offset equal to
    [C + 5], a negative or huge offset) the snapshot length is set to 0 and
    nothing is copied. *)
Theorem validity_check (r : rbuf.t) (l : lbuf.t) :
  (ring_valid r = true
   ↔ rbuf.magic r = BUF_MAGIC
     ∧ uintptr_t (rbuf.head r - rbuf.addr r) < BUF_SIZE
     ∧ uintptr_t (rbuf.tail r - rbuf.addr r) < BUF_SIZE)
  ∧ (ring_valid r = false → ring_buffer_copy r l = Ok (lbuf.mk (lbuf.data l) 0))
  ∧ (rbuf.magic r ≠ BUF_MAGIC → ring_valid r = false)
  ∧ (rbuf.head r - rbuf.addr r = BUF_SIZE → ring_valid r = false)
  ∧ (rbuf.tail r - rbuf.addr r = BUF_SIZE + 5 → ring_valid r = false)
  ∧ (∀ off, - 2 ^ 63 <= off < 2 ^ 63 → off < 0 ∨ BUF_SIZE <= off →
            rbuf.head r - rbuf.addr r = off ∨ rbuf.tail r - rbuf.addr r = off →
            ring_valid r = false).
Proof.
  pose proof (ring_valid_spec r) as Hspec.
  split; [done|]. split; [apply ring_buffer_copy_invalid|].
  assert (∀ P : Prop, (ring_valid r = true → ¬ P) → P → ring_valid r = false)
    as Hcontra
    by (intros P HP HnP; destruct (ring_valid r); [exfalso; by apply HP|done]).
  repeat split.
  - apply Hcontra. intros (Hm & _)%Hspec Hne. by apply Hne.
  - apply Hcontra. intros (_ & Hh & _)%Hspec Hoff. rewrite Hoff in Hh.
    vm_compute in Hh. discriminate.
  - apply Hcontra. intros (_ & _ & Ht)%Hspec Hoff. rewrite Hoff in Ht.
    vm_compute in Ht. discriminate.
  - intros off Hrange Hout Hoff.
    pose proof (uintptr_rejects off Hrange Hout) as Hrej.
    revert Hoff. apply Hcontra. intros (_ & Hh & Ht)%Hspec [Hoff|Hoff];
      rewrite Hoff in *; lia.
Qed.

Lemma validity_check_witness :
  (ring_valid (ring_buffer_init cold_block) = true ∧ ring_valid cold_block = false)
  ∧ ring_buffer_copy cold_block blank = Ok (lbuf.mk (lbuf.data blank) 0)
  ∧ ring_valid (rbuf.mk 4096 [] (4096 + BUF_SIZE) 4096 BUF_MAGIC) = false
  ∧ ring_valid (rbuf.mk 4096 [] 4096 (4096 + BUF_SIZE + 5) BUF_MAGIC) = false
  ∧ ring_valid (rbuf.mk 4096 [] 4095 4096 BUF_MAGIC) = false.
Proof.
  split; [split|split; [|split; [|split]]].
  - destruct (validity_check (ring_buffer_init cold_block) blank) as (Hiff & _).
    apply Hiff. repeat split; by vm_compute.
  - destruct (validity_check cold_block blank) as (_ & _ & Hmagic & _).
    apply Hmagic. by vm_compute.
  - destruct (validity_check cold_block blank) as (_ & Hcopy & Hmagic & _).
    apply Hcopy, Hmagic. by vm_compute.
  - destruct (validity_check (rbuf.mk 4096 [] (4096 + BUF_SIZE) 4096 BUF_MAGIC)
                blank) as (_ & _ & _ & Hhead & _).
    apply Hhead. by vm_compute.
  - destruct (validity_check (rbuf.mk 4096 [] 4096 (4096 + BUF_SIZE + 5) BUF_MAGIC)
                blank) as (_ & _ & _ & _ & Htail & _).
    apply Htail. by vm_compute.
  - destruct (validity_check (rbuf.mk 4096 [] 4095 4096 BUF_MAGIC) blank)
      as (_ & _ & _ & _ & _ & Hoff).
    apply (Hoff (-1)); [by vm_compute|left; lia|left; by vm_compute].
Defined.

(** C10. The snapshot length that [ring_buffer_copy] produces is always
    strictly below the capacity: on a state that passes the validity check
    it is at most [C - 1] (and it is 0 otherwise); a valid state with
    [head == tail] gives length 0, so equal cursors always mean an empty
    buffer, never a full one. *)
Theorem copy_length_below_capacity (r : rbuf.t) (l : lbuf.t) :
  rbuf_typed r → sized (lbuf.data l) →
  ∃ l',
    ring_buffer_copy r l = Ok l'
    ∧ 0 <= lbuf.count l' <= BUF_SIZE - 1
    ∧ (ring_valid r = true → rbuf.head r = rbuf.tail r → lbuf.count l' = 0).
Proof.
  intros Htyped Hout. destruct (ring_valid r) eqn:Hvalid.
  - destruct (ring_buffer_copy_valid r l Htyped Hout Hvalid) as (Hcopy & Hspan & Hr).
    eexists. split; [done|]. simpl. split; [lia|].
    intros _ Heq. rewrite Hspan, Heq, Z.ltb_irrefl. lia.
  - rewrite ring_buffer_copy_invalid by done.
    eexists. split; [done|]. simpl. unfold BUF_SIZE. split; [lia|done].
Qed.

Lemma copy_length_below_capacity_witness :
  ∃ l',
    ring_buffer_copy wrapped_ring blank = Ok l'
    ∧ 0 <= lbuf.count l' <= BUF_SIZE - 1
    ∧ (ring_valid wrapped_ring = true →
       rbuf.head wrapped_ring = rbuf.tail wrapped_ring → lbuf.count l' = 0).
Proof.
  apply copy_length_below_capacity.
  - exact wrapped_ring_typed.
  - exact blank_sized.
Defined.

(** ** The snapshot reader and eraser *)

Lemma u64_small (x : Z) : 0 <= x < 2 ^ 64 → u64 x = x.
Proof. intros Hx. unfold u64. by apply Z.mod_small. Qed.

Lemma s64_small (x : Z) : - 2 ^ 63 <= x < 2 ^ 63 → s64 x = x.
Proof. intros Hx. unfold s64. rewrite Z.mod_small; lia. Qed.

(** A slice that ends inside the snapshot can be cut from the array. *)
Lemma snapshot_slice (l : lbuf.t) (off n : nat) :
  (Z.of_nat (off + n) <= lbuf.count l) →
  take n (drop off (lbuf.data l)) = take n (drop off (snapshot l)).
Proof.
  intros Hend. unfold snapshot.
  rewrite !take_drop_commute, take_take. do 2 f_equal. lia.
Qed.

(** A request inside the array: the bytes that fit the caller's buffer
    are copied from the front, the rest is reported as not copied. *)
Lemma copy_to_user_in_range (ubuf : Z) (src : list Z) (off n : Z) :
  0 <= ubuf → 0 <= off → 0 <= n < 2 ^ 63 → off + n <= Z.of_nat (length src) →
  copy_to_user ubuf src off n
  = Ok (n - Z.min n ubuf,
        take (Z.to_nat (Z.min n ubuf)) (drop (Z.to_nat off) src)).
Proof.
  intros Hubuf Hoff Hn Hend. unfold copy_to_user.
  destruct (Z.eqb_spec n 0) as [->|Hn0].
  { by rewrite Z.min_l by lia. }
  destruct (Z.leb_spec (2 ^ 63) n); [lia|]. cbv zeta. unfold load_range.
  destruct (Z.eqb_spec (Z.min n ubuf) 0) as [->|Hk0]; [done|].
  destruct (Z.leb_spec 0 off); [|lia].
  destruct (Z.leb_spec 0 (Z.min n ubuf)); [|lia].
  destruct (Z.leb_spec (off + Z.min n ubuf) (Z.of_nat (length src))); [|lia].
  done.
Qed.

(** The call on a position that is not negative and a count for which
    position + count does not wrap: the clamped slice when the caller's
    buffer takes it, [-EFAULT] with the part that fitted otherwise. *)
Lemma linear_buffer_read_clamped (l : lbuf.t) (ubuf count pos : Z) :
  lbuf_ok l → 0 <= ubuf → 0 <= pos → 0 <= count →
  Z.min pos (lbuf.count l) + count < 2 ^ 64 →
  linear_buffer_read l ubuf count pos
  = Ok (if Z.min count (lbuf.count l - Z.min pos (lbuf.count l)) <=? ubuf
        then mk_read (Z.min count (lbuf.count l - Z.min pos (lbuf.count l)))
               (take (Z.to_nat
                        (Z.min count (lbuf.count l - Z.min pos (lbuf.count l))))
                     (drop (Z.to_nat (Z.min pos (lbuf.count l))) (snapshot l)))
               (Z.min pos (lbuf.count l)
                + Z.min count (lbuf.count l - Z.min pos (lbuf.count l)))
        else mk_read (- EFAULT)
               (take (Z.to_nat ubuf)
                     (drop (Z.to_nat (Z.min pos (lbuf.count l))) (snapshot l)))
               (Z.min pos (lbuf.count l))).
Proof.
  intros [Hsz Hlen] Hubuf Hpos Hcount Hwrap.
  unfold linear_buffer_read, sized, size_t, ssize_t, loff_t in *.
  assert (BUF_SIZE < 2 ^ 63) as Hbig by done.
  set (len := lbuf.count l) in *.
  replace (if len <=? pos then len else pos) with (Z.min pos len)
    by (destruct (Z.leb_spec len pos); lia).
  set (off := Z.min pos len) in *.
  rewrite (u64_small len), (u64_small (off + count)) by lia.
  replace (if len <=? off + count then u64 (len - off) else count)
    with (Z.min count (len - off))
    by (destruct (Z.leb_spec len (off + count)); [rewrite u64_small|]; lia).
  set (n := Z.min count (len - off)).
  rewrite copy_to_user_in_range by lia. run.
  rewrite snapshot_slice by (fold len; lia).
  destruct (Z.leb_spec n ubuf).
  - rewrite Z.min_l, Z.sub_diag by lia. cbn [Z.eqb negb].
    by rewrite !s64_small by lia.
  - rewrite Z.min_r by lia.
    destruct (Z.eqb_spec (n - ubuf) 0); [lia|done].
Qed.

(** Whatever the arguments, bytes that reach the caller come from the
    snapshot. *)
Lemma linear_buffer_read_bytes (l : lbuf.t) (ubuf count pos : Z) (res : read_t) :
  lbuf_ok l → linear_buffer_read l ubuf count pos = Ok res →
  ∃ i n, read_bytes res = take n (drop i (snapshot l)).
Proof.
  intros [Hsz Hlen]. unfold linear_buffer_read, sized, size_t in *.
  assert (BUF_SIZE < 2 ^ 63) as Hbig by done.
  set (len := lbuf.count l) in *.
  set (off := if len <=? pos then len else pos).
  assert (off <= len) as Hoff by (unfold off; destruct (Z.leb_spec len pos); lia).
  set (n := if u64 len <=? u64 (off + count) then u64 (len - off) else count).
  assert (∀ (ret : Z) (p : Z) (b : bool),
            (if b then Ok (mk_read ret [] p) else Ok (mk_read ret [] p)) = Ok res →
            ∃ i k, read_bytes res = take k (drop i (snapshot l))) as Hnone.
  { intros ret p b Hres. exists 0%nat, 0%nat.
    by destruct b; injection Hres as <-. }
  unfold copy_to_user.
  destruct (Z.eqb_spec n 0) as [Hn0|Hn0].
  { run. cbn [Z.eqb negb]. intros [= <-]. by exists 0%nat, 0%nat. }
  destruct (Z.leb_spec (2 ^ 63) n) as [Hhuge|Hhuge].
  { run. destruct (negb (n =? 0)); intros [= <-]; by exists 0%nat, 0%nat. }
  cbv zeta. set (k := Z.min n ubuf). unfold load_range.
  destruct (Z.eqb_spec k 0) as [Hk0|Hk0].
  { run. destruct (negb (n - k =? 0)); intros [= <-]; by exists 0%nat, 0%nat. }
  destruct (Z.leb_spec 0 off) as [H0off|]; [|done].
  destruct (Z.leb_spec 0 k) as [H0k|]; [|done].
  destruct (Z.leb_spec (off + k) (Z.of_nat (length (lbuf.data l)))) as [Hend|];
    [|done].
  cbn [andb]. run.
  assert (off + n <= len) as Hin.
  { assert (0 <= n) as H0n by lia. revert Hn0 Hhuge H0n. clear Hnone.
    unfold n. rewrite (u64_small len) by lia.
    destruct (Z.leb_spec len (u64 (off + count))) as [Hc|Hc]; intros Hn0 Hhuge H0n.
    - rewrite u64_small by lia. lia.
    - rewrite u64_small in Hc by lia. lia. }
  assert (read_bytes res = take (Z.to_nat k) (drop (Z.to_nat off) (snapshot l))
          → ∃ i m, read_bytes res = take m (drop i (snapshot l))) as Hsome
    by eauto.
  rewrite snapshot_slice by (fold len; lia).
  destruct (negb (n - k =? 0)); intros [= <-]; by apply Hsome.
Qed.

Lemma letters_ok : lbuf_ok letters.
Proof. repeat split; by vm_compute. Qed.

(** C6.  For every position and count the file layer passes (a position
    that is not negative, a count below [2 ^ 63]), [linear_buffer_read]
    clamps the position to [0, length] and the count so that position +
    count <= length; it never leaves the array, whatever the caller's
    buffer; when the caller's buffer takes the clamped slice it hands out
    exactly that slice of the snapshot and moves the position by the number
    of bytes handed out; and a read at a position beyond the length returns
    zero bytes without a fault, whatever the caller's buffer. *)
Theorem read_clamps_in_range (l : lbuf.t) (ubuf count pos : Z) :
  lbuf_ok l → 0 <= ubuf → 0 <= pos < 2 ^ 63 → 0 <= count < 2 ^ 63 →
  (∃ res, linear_buffer_read l ubuf count pos = Ok res)
  ∧ (Z.min count (lbuf.count l - Z.min pos (lbuf.count l)) <= ubuf →
     read_clamps l ubuf count pos)
  ∧ (lbuf.count l <= pos →
     linear_buffer_read l ubuf count pos = Ok (mk_read 0 [] (lbuf.count l))).
Proof.
  intros Hok Hubuf Hpos Hcount.
  pose proof Hok as [_ Hlen]. assert (BUF_SIZE < 2 ^ 63) as Hbig by done.
  pose proof (linear_buffer_read_clamped l ubuf count pos Hok) as Hread.
  rewrite Hread by lia. clear Hread.
  split; [by eexists|]. split.
  - intros Hfits. unfold read_clamps.
    pose proof (linear_buffer_read_clamped l ubuf count pos Hok) as Hread.
    rewrite Hread by lia. rewrite Z.max_r by lia.
    by destruct (Z.leb_spec
                   (Z.min count (lbuf.count l - Z.min pos (lbuf.count l))) ubuf);
      [|lia].
  - intros Hbeyond.
    rewrite (Z.min_r pos), Z.sub_diag, (Z.min_r count) by lia.
    destruct (Z.leb_spec 0 ubuf); [|lia].
    by rewrite Z.add_0_r.
Qed.

Lemma read_clamps_in_range_witness :
  read_clamps letters 4096 10 95
  ∧ linear_buffer_read letters 0 10 200 = Ok (mk_read 0 [] (lbuf.count letters)).
Proof.
  split.
  - destruct (read_clamps_in_range letters 4096 10 95) as (_ & Hslice & _);
      [exact letters_ok|lia|by vm_compute|by vm_compute|].
    apply Hslice. by vm_compute.
  - destruct (read_clamps_in_range letters 0 10 200) as (_ & _ & Hbeyond);
      [exact letters_ok|lia|by vm_compute|by vm_compute|].
    apply Hbeyond. by vm_compute.
Defined.

(** A partial read at the end of the snapshot, and a read beyond it into a
    buffer that takes nothing. *)
Example read_last_five :
  linear_buffer_read letters 4096 10 95
  = Ok (mk_read 5 [0x41; 0x41; 0x41; 0x41; 0x41] 100).
Proof. vm_compute. reflexivity. Qed.

Example read_beyond_length :
  linear_buffer_read letters 0 10 200 = Ok (mk_read 0 [] 100).
Proof. vm_compute. reflexivity. Qed.

(** C7. A write of any size and any content sets the snapshot length to 0
    and reports the full size as consumed; the array is left as it is;
    after it every read returns zero bytes, whatever the count and the
    caller's buffer.  Sizes are those the file layer passes and the
    [ssize_t] result carries (below [2 ^ 63]); positions are not negative. *)
Theorem write_erases_snapshot (l : lbuf.t) (size ubuf count pos : Z) :
  0 <= size < 2 ^ 63 → 0 <= pos →
  erases l size
  ∧ lbuf.data (linear_buffer_write l size).1 = lbuf.data l
  ∧ snapshot (linear_buffer_write l size).1 = []
  ∧ reads_nothing (linear_buffer_write l size).1 ubuf count pos
  ∧ linear_buffer_read (linear_buffer_write l size).1 ubuf count pos
    = Ok (mk_read 0 [] 0).
Proof.
  intros Hsize Hpos. unfold erases, linear_buffer_write, ssize_t. simpl.
  rewrite s64_small by lia. do 2 (split; [done|]).
  split; [by unfold snapshot|].
  assert (linear_buffer_read (lbuf.mk (lbuf.data l) 0) ubuf count pos
          = Ok (mk_read 0 [] 0)) as Hread.
  { assert ((0 <=? u64 (0 + count)) = true) as Hle
      by (apply Z.leb_le, Z.mod_pos_bound; done).
    unfold linear_buffer_read. cbn [lbuf.count lbuf.data].
    destruct (Z.leb_spec 0 pos); [|lia].
    change (u64 0) with 0. rewrite Hle. change (size_t (0 - 0)) with 0.
    done. }
  split; [|done]. by eexists.
Qed.

Lemma write_erases_snapshot_witness :
  erases letters 17
  ∧ lbuf.data (linear_buffer_write letters 17).1 = lbuf.data letters
  ∧ snapshot (linear_buffer_write letters 17).1 = []
  ∧ reads_nothing (linear_buffer_write letters 17).1 4096 10 0
  ∧ linear_buffer_read (linear_buffer_write letters 17).1 4096 10 0
    = Ok (mk_read 0 [] 0).
Proof. apply write_erases_snapshot; lia. Defined.

(** ** Printable snapshots *)

Lemma sanitized_window_printable (r : rbuf.t) :
  Forall is_char (rbuf.data r) → Forall printable (sanitize <$> window r).
Proof.
  intros Hc. apply Forall_fmap.
  pose proof (window_chars r Hc) as Hw.
  rewrite Forall_forall in Hw |- *.
  intros c Hin. by apply sanitize_printable, Hw.
Qed.

(** Reading and erasing keep a printable snapshot printable. *)
Lemma printable_preserved (l : lbuf.t) :
  lbuf_ok l → Forall printable (snapshot l) →
  (∀ ubuf count pos res,
     linear_buffer_read l ubuf count pos = Ok res →
     Forall printable (read_bytes res))
  ∧ (∀ size, Forall printable (snapshot (linear_buffer_write l size).1)).
Proof.
  intros Hok Hp. split.
  - intros ubuf count pos res Hres.
    destruct (linear_buffer_read_bytes l ubuf count pos res Hok Hres)
      as (i & n & ->).
    by apply Forall_take, Forall_drop.
  - intros size. unfold snapshot. simpl. by rewrite take_0.
Qed.

(** C9. After [ring_buffer_copy] every byte of the snapshot (positions 0 to
    length - 1 of the linear buffer) is either the newline [0x0A] or lies in
    [0x20 .. 0x7F]: no byte with the high bit set and no control byte other
    than newline.  Reading does not change the buffer and every byte it
    hands out has the property; erasing leaves an empty snapshot. *)
Theorem snapshot_printable (r : rbuf.t) (l : lbuf.t) :
  rbuf_typed r → Forall is_char (rbuf.data r) → sized (lbuf.data l) →
  ∃ l',
    ring_buffer_copy r l = Ok l'
    ∧ lbuf_ok l'
    ∧ Forall printable (snapshot l')
    ∧ (∀ ubuf count pos res,
         linear_buffer_read l' ubuf count pos = Ok res →
         Forall printable (read_bytes res))
    ∧ (∀ size, Forall printable (snapshot (linear_buffer_write l' size).1)).
Proof.
  intros Htyped Hchars Hout.
  assert (∃ l', ring_buffer_copy r l = Ok l' ∧ lbuf_ok l'
                ∧ Forall printable (snapshot l')) as (l' & Hcopy & Hok & Hp).
  { destruct (ring_valid r) eqn:Hvalid.
    - destruct (ring_buffer_copy_valid r l Htyped Hout Hvalid) as (Hcopy & _ & Hr).
      destruct (ring_valid_in_storage r Htyped Hvalid) as [_ Ht].
      pose proof (window_length r (proj1 Htyped) Ht) as Hwl.
      eexists. split; [done|]. unfold lbuf_ok, snapshot, sized in *. simpl.
      split; [split; [|lia]|].
      + rewrite length_app, length_fmap, length_drop. lia.
      + rewrite take_app_length' by (rewrite length_fmap; lia).
        by apply sanitized_window_printable.
    - rewrite ring_buffer_copy_invalid by done.
      eexists. split; [done|]. unfold lbuf_ok, snapshot. simpl.
      split; [split; [done|by vm_compute]|by rewrite take_0]. }
  exists l'. split; [done|]. split; [done|]. split; [done|].
  by apply printable_preserved.
Qed.

Lemma wrapped_ring_chars : Forall is_char (rbuf.data wrapped_ring).
Proof.
  unfold wrapped_ring. cbn [rbuf.data].
  apply Forall_app. split; [|apply Forall_app; split; [apply Forall_replicate|]];
    repeat apply List.Forall_cons; try apply Forall_nil; unfold is_char; lia.
Qed.

Lemma snapshot_printable_witness :
  ∃ l',
    ring_buffer_copy wrapped_ring blank = Ok l'
    ∧ lbuf_ok l'
    ∧ Forall printable (snapshot l')
    ∧ (∀ ubuf count pos res,
         linear_buffer_read l' ubuf count pos = Ok res →
         Forall printable (read_bytes res))
    ∧ (∀ size, Forall printable (snapshot (linear_buffer_write l' size).1)).
Proof.
  apply snapshot_printable.
  - exact wrapped_ring_typed.
  - exact wrapped_ring_chars.
  - exact blank_sized.
Defined.

(** * Further properties of the capture path *)

(** ** Cells of the array read round from a position *)

Lemma window_window_at (r : rbuf.t) :
  window r = window_at (rbuf.addr r) (rbuf.data r) (rbuf.head r) (rbuf.tail r).
Proof. reflexivity. Qed.

(** Reading [S k] cells from [t] is reading cell [t] and then [k] cells
    from the next position, which is 0 behind the last cell. *)
Lemma cells_step (D : list Z) (t k : nat) (x : Z) :
  D !! t = Some x → (k <= length D)%nat →
  take (S k) (drop t (D ++ D))
  = x :: take k (drop (if decide (S t = length D) then 0 else S t)%nat (D ++ D)).
Proof.
  intros Hx Hk.
  assert ((D ++ D) !! t = Some x) as Hx2 by (by apply lookup_app_l_Some).
  rewrite (drop_S _ _ _ Hx2), firstn_cons. f_equal.
  destruct (decide (S t = length D)) as [->|_]; [|done].
  by rewrite drop_0, drop_app_length, take_app_le.
Qed.

(** Storing [c] in cell [h], the cell that follows the [n] cells read from
    [t], appends [c] to what is read from [t]. *)
Lemma cells_insert (D : list Z) (h t n : nat) (c : Z) :
  (h < length D)%nat → (t < length D)%nat → (n < length D)%nat →
  (t + n = h ∨ t + n = h + length D)%nat →
  take (S n) (drop t (<[h:=c]> D ++ <[h:=c]> D))
  = take n (drop t (D ++ D)) ++ [c].
Proof.
  intros Hh Ht Hlt Hn.
  assert ((<[h:=c]> D ++ <[h:=c]> D) !! (t + n)%nat = Some c) as Hc.
  { destruct Hn as [->| ->].
    - apply lookup_app_l_Some. by apply list_lookup_insert_eq.
    - rewrite lookup_app_r by (rewrite length_insert; lia).
      rewrite length_insert.
      replace (h + length D - length D)%nat with h by lia.
      by apply list_lookup_insert_eq. }
  rewrite (take_S_r _ _ c) by (by rewrite lookup_drop).
  f_equal.
  replace (<[h:=c]> D ++ <[h:=c]> D)
    with (<[h:=c]> (<[(length D + h)%nat:=c]> (D ++ D))).
  2:{ rewrite insert_app_r, insert_app_l by (rewrite ?length_insert; lia). done. }
  assert (∀ (L : list Z) (i : nat), (i < t ∨ t + n <= i)%nat →
            take n (drop t (<[i:=c]> L)) = take n (drop t L)) as Hskip.
  { intros L i [Hi|Hi].
    - by rewrite drop_insert_lt.
    - rewrite drop_insert_ge by lia. apply take_insert_ge. lia. }
  rewrite !Hskip by lia. done.
Qed.

Lemma after_newline_one (c : Z) : after_newline [c] = [].
Proof. simpl. by destruct (c =? NL). Qed.

(** ** The eviction scan and the window *)

Section eviction.
Variables start stop : Z.
Hypothesis Hcap : stop - start = BUF_SIZE.

Lemma dist_span (head tail : Z) :
  start <= head < stop → start <= tail < stop → head ≠ tail →
  dist start stop tail head = (head - tail) mod BUF_SIZE.
Proof.
  intros Hh Ht Hne. unfold dist.
  replace (head - tail) with (head - start - (tail - start)) by lia.
  rewrite span_cases by lia.
  destruct (Z.ltb_spec tail head), (Z.ltb_spec (head - start) (tail - start)); lia.
Qed.

(** The scan leaves the window that follows the first newline of the cells
    between [tail] and [head]. *)
Lemma evict_window (fuel : nat) (data : list Z) (head tail : Z) :
  sized data → start <= head < stop → start <= tail < stop →
  dist start stop tail head <= Z.of_nat fuel →
  ∃ t, evict fuel data start stop head tail = Ok t ∧ start <= t < stop
       ∧ window_at start data head t
         = after_newline
             (take (Z.to_nat (dist start stop tail head))
                   (drop (Z.to_nat (tail - start)) (data ++ data))).
Proof.
  unfold sized. intros Hlen Hh. revert tail.
  induction fuel as [|fuel IH]; intros tail Ht Hd.
  { unfold dist in Hd. destruct (Z.ltb_spec tail head); lia. }
  destruct (load_in_bounds data (tail - start)) as (c & Hc & Hlk); [lia|].
  simpl evict. rewrite Hc. run.
  set (tail' := if tail + 1 =? stop then start else tail + 1).
  assert (start <= tail' < stop) as Ht'
    by (unfold tail'; destruct (Z.eqb_spec (tail + 1) stop); lia).
  assert (dist start stop tail head
          = 1 + (if tail' =? head then 0 else dist start stop tail' head)) as Hstep.
  { unfold dist, tail'.
    destruct (Z.eqb_spec (tail + 1) stop), (Z.ltb_spec tail head);
      repeat match goal with
             | |- context [?a =? ?b] => destruct (Z.eqb_spec a b)
             | |- context [?a <? ?b] => destruct (Z.ltb_spec a b)
             end; lia. }
  assert (Z.to_nat (tail' - start)
          = if decide (S (Z.to_nat (tail - start)) = length data)
            then 0%nat else S (Z.to_nat (tail - start))) as Hnext.
  { unfold tail'. destruct (Z.eqb_spec (tail + 1) stop);
      destruct (decide (S (Z.to_nat (tail - start)) = length data)); lia. }
  assert (∀ k, (k <= length data)%nat →
            take (S k) (drop (Z.to_nat (tail - start)) (data ++ data))
            = c :: take k (drop (Z.to_nat (tail' - start)) (data ++ data)))
    as Hcells by (intros k Hk; rewrite Hnext; by apply cells_step).
  destruct (Z.eqb_spec tail' head) as [Heq|Hne].
  - exists tail'. split; [done|]. split; [done|].
    rewrite Hstep. change (Z.to_nat (1 + 0)) with 1%nat.
    rewrite Hcells by lia. rewrite take_0, after_newline_one.
    unfold window_at. by rewrite Heq, Z.sub_diag.
  - assert (0 <= dist start stop tail' head <= BUF_SIZE - 1) as Hd'.
    { rewrite dist_span by done.
      pose proof (Z.mod_pos_bound (head - tail') BUF_SIZE eq_refl). lia. }
    rewrite Hstep.
    replace (Z.to_nat (1 + dist start stop tail' head))
      with (S (Z.to_nat (dist start stop tail' head))) by lia.
    rewrite Hcells by lia. simpl after_newline.
    destruct (c =? NL).
    + exists tail'. split; [done|]. split; [done|].
      unfold window_at. by rewrite <- dist_span.
    + apply IH; [done|lia].
Qed.

(** One round of the write loop, seen from the window. *)
Lemma write_char_window (data : list Z) (head tail c : Z) :
  locals_ok start stop (data, head, tail) →
  ∃ data' head' tail',
    write_char start stop (data, head, tail) c = Ok (data', head', tail')
    ∧ locals_ok start stop (data', head', tail')
    ∧ window_at start data' head' tail'
      = push (window_at start data head tail) c
    ∧ (Z.of_nat (length (window_at start data head tail)) + 1 < BUF_SIZE →
       tail' = tail).
Proof.
  intros (Hlen & Hh & Ht). unfold locals_ok, sized in *. unfold write_char.
  rewrite store_in_bounds by lia. run.
  set (data' := <[Z.to_nat (head - start) := c]> data).
  assert (Z.of_nat (length data') = BUF_SIZE) as Hlen'
    by (unfold data'; by rewrite length_insert).
  set (head' := if head + 1 =? stop then start else head + 1).
  assert (start <= head' < stop) as Hh'
    by (unfold head'; destruct (Z.eqb_spec (head + 1) stop); lia).
  set (n := (head - tail) mod BUF_SIZE).
  assert (0 <= n < BUF_SIZE) as Hn by (by apply Z.mod_pos_bound).
  assert (n = if head - start <? tail - start
              then BUF_SIZE + (head - start) - (tail - start)
              else head - start - (tail - start)) as Hncases.
  { unfold n. replace (head - tail) with (head - start - (tail - start)) by lia.
    by rewrite span_cases by lia. }
  assert (Z.of_nat (length (window_at start data head tail)) = n) as Hwl.
  { unfold window_at. fold n. rewrite length_take, length_drop, length_app. lia. }
  assert (take (S (Z.to_nat n)) (drop (Z.to_nat (tail - start)) (data' ++ data'))
          = window_at start data head tail ++ [c]) as Hcells.
  { unfold data', window_at. fold n. apply cells_insert; try lia.
    destruct (Z.ltb_spec (head - start) (tail - start)); lia. }
  assert ((head' - tail) mod BUF_SIZE = if n + 1 =? BUF_SIZE then 0 else n + 1)
    as Hn'.
  { replace (head' - tail) with (head' - start - (tail - start)) by lia.
    rewrite span_cases by lia. unfold head'.
    destruct (Z.eqb_spec (head + 1) stop), (Z.eqb_spec (n + 1) BUF_SIZE),
      (Z.ltb_spec (head - start) (tail - start));
      repeat match goal with
             | |- context [?a <? ?b] => destruct (Z.ltb_spec a b)
             end; lia. }
  unfold push. rewrite Hwl.
  destruct (Z.eqb_spec head' tail) as [Heq|Hne].
  - assert (n + 1 = BUF_SIZE) as Hfull.
    { destruct (Z.eqb_spec (n + 1) BUF_SIZE); [done|].
      rewrite Heq, Z.sub_diag in Hn'. change (0 mod BUF_SIZE) with 0 in Hn'. lia. }
    destruct (Z.ltb_spec (n + 1) BUF_SIZE); [lia|].
    destruct (evict_window evict_fuel data' head' tail) as (t & Hev & Hr & Hw);
      [done|done|lia| |].
    { unfold dist, evict_fuel. rewrite BUF_SIZE_nat.
      destruct (Z.ltb_spec tail head'); lia. }
    rewrite Hev. run. exists data', head', t.
    split; [done|]. split; [done|]. split; [|lia].
    rewrite Hw, <- Hcells. do 2 f_equal.
    unfold dist. destruct (Z.ltb_spec tail head'); lia.
  - assert (n + 1 ≠ BUF_SIZE) as Hfree.
    { intros Hfull. rewrite Hfull, Z.eqb_refl in Hn'.
      replace (head' - tail) with (head' - start - (tail - start)) in Hn' by lia.
      rewrite span_cases in Hn' by lia.
      destruct (Z.ltb_spec (head' - start) (tail - start)); lia. }
    destruct (Z.ltb_spec (n + 1) BUF_SIZE); [|lia].
    exists data', head', tail.
    split; [done|]. split; [done|]. split; [|done].
    unfold window_at at 1. rewrite Hn'.
    destruct (Z.eqb_spec (n + 1) BUF_SIZE); [done|].
    rewrite <- Hcells. f_equal. lia.
Qed.

Lemma write_loop_window (str : list Z) (data : list Z) (head tail : Z) :
  locals_ok start stop (data, head, tail) →
  ∃ data' head' tail',
    write_loop start stop (data, head, tail) str = Ok (data', head', tail')
    ∧ locals_ok start stop (data', head', tail')
    ∧ window_at start data' head' tail'
      = pushes (window_at start data head tail) str.
Proof.
  revert data head tail.
  induction str as [|c str IH]; intros data head tail Hok.
  { by exists data, head, tail. }
  destruct (write_char_window data head tail c Hok)
    as (d1 & h1 & t1 & H1 & Hok1 & Hw1 & _).
  destruct (IH d1 h1 t1 Hok1) as (d2 & h2 & t2 & H2 & Hok2 & Hw2).
  exists d2, h2, t2. rewrite write_loop_cons, H1. run.
  split; [done|]. split; [done|]. rewrite Hw2, Hw1. done.
Qed.

(** While the bytes fit, they are appended and [tail] stays. *)
Lemma write_loop_room (str : list Z) (data : list Z) (head tail : Z) :
  locals_ok start stop (data, head, tail) →
  Z.of_nat (length (window_at start data head tail) + length str) < BUF_SIZE →
  ∃ data' head',
    write_loop start stop (data, head, tail) str = Ok (data', head', tail)
    ∧ window_at start data' head' tail = window_at start data head tail ++ str.
Proof.
  revert data head.
  induction str as [|c str IH]; intros data head Hok Hroom.
  { exists data, head. by rewrite app_nil_r. }
  simpl in Hroom.
  destruct (write_char_window data head tail c Hok)
    as (d1 & h1 & t1 & H1 & Hok1 & Hw1 & Htail).
  rewrite Htail in * by lia.
  unfold push in Hw1.
  destruct (Z.ltb_spec (Z.of_nat (length (window_at start data head tail)) + 1)
              BUF_SIZE); [|lia].
  destruct (IH d1 h1 Hok1) as (d2 & h2 & H2 & Hw2).
  { rewrite Hw1, length_app. simpl. lia. }
  exists d2, h2. rewrite write_loop_cons, H1. run.
  split; [done|]. rewrite Hw2, Hw1, <- (assoc_L (++)). done.
Qed.

End eviction.

(** ** Lists: what [push] keeps *)

Lemma after_newline_suffix (l : list Z) : after_newline l `suffix_of` l.
Proof.
  induction l as [|c l IH]; [done|]. simpl.
  destruct (c =? NL); [by apply suffix_cons_r|by apply suffix_cons_r].
Qed.

Lemma after_newline_none (l : list Z) :
  Forall (λ c, c ≠ NL) l → after_newline l = [].
Proof.
  induction 1 as [|c l Hc _ IH]; [done|]. simpl.
  by destruct (Z.eqb_spec c NL).
Qed.

Lemma after_newline_first_line (line rest : list Z) :
  Forall (λ c, c ≠ NL) line → after_newline (line ++ NL :: rest) = rest.
Proof.
  induction 1 as [|c l Hc _ IH]; simpl; [done|].
  by destruct (Z.eqb_spec c NL).
Qed.

Lemma push_suffix (w : list Z) (c : Z) : push w c `suffix_of` w ++ [c].
Proof.
  unfold push. destruct (_ <? _); [done|apply after_newline_suffix].
Qed.

Lemma pushes_suffix (str : list Z) (w : list Z) :
  pushes w str `suffix_of` w ++ str.
Proof.
  revert w. induction str as [|c str IH]; intros w.
  { by rewrite app_nil_r. }
  unfold pushes in *. simpl. etrans; [apply IH|].
  rewrite (cons_middle c w str), (assoc_L (++)).
  apply suffix_app, push_suffix.
Qed.

Lemma pushes_room (str : list Z) (w : list Z) :
  Z.of_nat (length w + length str) < BUF_SIZE → pushes w str = w ++ str.
Proof.
  revert w. induction str as [|c str IH]; intros w Hroom.
  { by rewrite app_nil_r. }
  simpl in Hroom. unfold pushes in *. simpl. unfold push at 2.
  destruct (Z.ltb_spec (Z.of_nat (length w) + 1) BUF_SIZE); [|lia].
  rewrite IH by (rewrite length_app; simpl; lia).
  by rewrite <- (assoc_L (++)).
Qed.

(** ** The window after a call *)

Lemma ring_buffer_write_window (r : rbuf.t) (str : list Z) :
  rbuf_ok r →
  ∃ r', ring_buffer_write r str = Ok r' ∧ rbuf_ok r'
        ∧ rbuf.addr r' = rbuf.addr r ∧ rbuf.magic r' = rbuf.magic r
        ∧ window r' = pushes (window r) str.
Proof.
  intros (Hlen & Hh & Ht). unfold in_storage in *.
  destruct (write_loop_window (rbuf.addr r) (rbuf.addr r + BUF_SIZE) ltac:(lia)
              str (rbuf.data r) (rbuf.head r) (rbuf.tail r))
    as (d & h & t & Hw & (Hl' & Hh' & Ht') & Hwin); [done|].
  unfold ring_buffer_write. rewrite Hw. run.
  eexists. split; [done|].
  unfold rbuf_ok, in_storage. simpl. repeat split; try done; lia.
Qed.

Lemma ring_buffer_writes_window (r : rbuf.t) (chunks : list (list Z)) :
  rbuf_ok r →
  ∃ r', ring_buffer_writes r chunks = Ok r' ∧ rbuf_ok r'
        ∧ rbuf.addr r' = rbuf.addr r ∧ rbuf.magic r' = rbuf.magic r
        ∧ window r' = pushes (window r) (concat chunks).
Proof. rewrite ring_buffer_writes_concat. apply ring_buffer_write_window. Qed.

Lemma ring_buffer_init_ok (r : rbuf.t) :
  sized (rbuf.data r) →
  rbuf_ok (ring_buffer_init r) ∧ window (ring_buffer_init r) = [].
Proof.
  intros Hlen. split.
  - unfold rbuf_ok, in_storage, ring_buffer_init; simpl.
    unfold BUF_SIZE. repeat split; first done; lia.
  - unfold window, span. simpl. by rewrite Z.sub_diag.
Qed.

Lemma window_empty_cursors (r : rbuf.t) :
  rbuf_ok r → window r = [] → rbuf.head r = rbuf.tail r.
Proof.
  intros (Hlen & Hh & Ht) Hw. unfold in_storage in *.
  pose proof (window_length r Hlen Ht) as Hl. rewrite Hw in Hl. simpl in Hl.
  unfold span in Hl.
  replace (rbuf.head r - rbuf.tail r)
    with (rbuf.head r - rbuf.addr r - (rbuf.tail r - rbuf.addr r)) in Hl by lia.
  rewrite span_cases in Hl by lia.
  destruct (Z.ltb_spec (rbuf.head r - rbuf.addr r) (rbuf.tail r - rbuf.addr r)); lia.
Qed.


Lemma rbuf_ok_valid (r : rbuf.t) :
  rbuf_ok r → rbuf.magic r = BUF_MAGIC →
  0 <= rbuf.addr r → rbuf.addr r + BUF_SIZE <= 2 ^ 64 →
  ring_valid r = true ∧ rbuf_typed r.
Proof.
  intros (Hlen & Hh & Ht) Hm Ha Hb. unfold in_storage in *.
  assert (ptr (rbuf.head r) ∧ ptr (rbuf.tail r)) as [Hph Hpt]
    by (unfold ptr; lia).
  split; [|unfold rbuf_typed; by split_and!].
  apply ring_valid_spec. split; [done|]. split; by apply uintptr_in_storage.
Qed.

Lemma ring_buffer_copy_snapshot (r : rbuf.t) (l : lbuf.t) :
  rbuf_typed r → sized (lbuf.data l) → ring_valid r = true →
  ∃ l', ring_buffer_copy r l = Ok l' ∧ lbuf_ok l'
        ∧ lbuf.count l' = Z.of_nat (length (window r))
        ∧ snapshot l' = sanitize <$> window r.
Proof.
  intros Htyped Hout Hvalid.
  destruct (ring_buffer_copy_valid r l Htyped Hout Hvalid) as (Hcopy & _ & Hr).
  destruct (ring_valid_in_storage r Htyped Hvalid) as [_ Ht].
  pose proof (window_length r (proj1 Htyped) Ht) as Hwl.
  eexists. split; [done|]. unfold lbuf_ok, snapshot, sized in *. simpl.
  split; [split; [|lia]|split; [done|]].
  - rewrite length_app, length_fmap, length_drop. lia.
  - rewrite take_app_length' by (rewrite length_fmap; lia). done.
Qed.

Lemma ring_buffer_copy_total (r : rbuf.t) (l : lbuf.t) :
  rbuf_typed r → sized (lbuf.data l) →
  ∃ l', ring_buffer_copy r l = Ok l' ∧ lbuf_ok l'.
Proof.
  intros Htyped Hout. destruct (ring_valid r) eqn:Hvalid.
  - destruct (ring_buffer_copy_snapshot r l Htyped Hout Hvalid)
      as (l' & ? & ? & _). eauto.
  - rewrite ring_buffer_copy_invalid by done. eexists. split; [done|].
    split; [done|]. simpl. by vm_compute.
Qed.

Lemma sanitize_fixes_printable (c : Z) : printable c → sanitize c = c.
Proof.
  intros Hp.
  assert (is_char c) as Hc by (unfold is_char, printable, NL in *; lia).
  pose proof (all_chars
    (λ c, negb ((c =? NL) || ((0x20 <=? c) && (c <=? 0x7F))) || (sanitize c =? c))
    eq_refl c Hc) as H.
  cbv beta in H. apply orb_prop in H as [H|H%Z.eqb_eq]; [|done].
  apply negb_true_iff, orb_false_elim in H as [Hnl Hr].
  destruct Hp as [->|[Hlo Hhi]]; [done|].
  apply andb_false_iff in Hr as [Hr%Z.leb_gt|Hr%Z.leb_gt]; lia.
Qed.

Lemma fmap_sanitize_printable (l : list Z) :
  Forall printable l → sanitize <$> l = l.
Proof.
  induction 1 as [|c l Hc _ IH]; [done|].
  by rewrite fmap_cons, IH, sanitize_fixes_printable.
Qed.

Lemma suffix_fmap_sanitize (l1 l2 : list Z) :
  l1 `suffix_of` l2 → (sanitize <$> l1) `suffix_of` (sanitize <$> l2).
Proof. intros [k ->]. exists (sanitize <$> k). by rewrite fmap_app. Qed.

(** ** Properties of [ring_buffer_write] *)

(** X1. The window after a call is the window before it with the bytes
    pushed one by one: a byte is appended while fewer than [C - 1] bytes are
    retained; on a full window the byte is appended and everything up to
    and including the first newline goes, all of it when there is none. *)
Theorem write_follows_push (r : rbuf.t) (str : list Z) :
  rbuf_ok r →
  ∃ r', ring_buffer_write r str = Ok r' ∧ window r' = pushes (window r) str.
Proof.
  intros Hok.
  destruct (ring_buffer_write_window r str Hok) as (r' & Hw & _ & _ & _ & Hwin).
  eauto.
Qed.

(** X2. Whatever is written after a reset, in whatever chunks and however
    much, the retained window is a suffix of the bytes written and is
    shorter than the capacity. *)
Theorem window_suffix_of_stream (r : rbuf.t) (chunks : list (list Z)) :
  sized (rbuf.data r) →
  ∃ r', ring_buffer_writes (ring_buffer_init r) chunks = Ok r'
        ∧ window r' `suffix_of` concat chunks
        ∧ Z.of_nat (length (window r')) < BUF_SIZE.
Proof.
  intros Hlen. destruct (ring_buffer_init_ok r Hlen) as [Hok Hempty].
  destruct (ring_buffer_writes_window _ chunks Hok)
    as (r' & Hw & (Hl' & _ & Ht') & _ & _ & Hwin).
  exists r'. split; [done|]. split.
  - rewrite Hwin, Hempty. apply (pushes_suffix (concat chunks) []).
  - rewrite window_length by done.
    apply (Z.mod_pos_bound _ BUF_SIZE). done.
Qed.

(** X3. While the bytes fit beside what is retained, from any position of
    the cursors, they are appended to the window and [tail] does not move:
    nothing is evicted before the buffer is full. *)
Theorem bytes_appended_while_room (r : rbuf.t) (str : list Z) :
  rbuf_ok r → Z.of_nat (length (window r) + length str) < BUF_SIZE →
  ∃ r', ring_buffer_write r str = Ok r'
        ∧ window r' = window r ++ str ∧ rbuf.tail r' = rbuf.tail r.
Proof.
  intros (Hlen & Hh & Ht) Hroom. unfold in_storage in *.
  destruct (write_loop_room (rbuf.addr r) (rbuf.addr r + BUF_SIZE) ltac:(lia)
              str (rbuf.data r) (rbuf.head r) (rbuf.tail r))
    as (d & h & Hw & Hwin); [done|done|].
  unfold ring_buffer_write. rewrite Hw. run. eexists. split; [done|].
  split; [|done]. rewrite !window_window_at. done.
Qed.

(** X4. When the window is full and holds a newline, the next byte evicts
    exactly the oldest line, its newline included, and is appended. *)
Theorem oldest_line_evicted (r : rbuf.t) (line rest : list Z) (c : Z) :
  rbuf_ok r → Z.of_nat (length (window r)) = BUF_SIZE - 1 →
  window r = line ++ NL :: rest → Forall (λ b, b ≠ NL) line →
  ∃ r', ring_buffer_write r [c] = Ok r' ∧ window r' = rest ++ [c].
Proof.
  intros Hok Hfull Hsplit Hline.
  destruct (ring_buffer_write_window r [c] Hok) as (r' & Hw & _ & _ & _ & Hwin).
  exists r'. split; [done|]. rewrite Hwin. unfold pushes, push. simpl.
  destruct (Z.ltb_spec (Z.of_nat (length (window r)) + 1) BUF_SIZE); [lia|].
  rewrite Hsplit, <- (assoc_L (++)). simpl.
  by rewrite after_newline_first_line.
Qed.

(** X5. When the window is full and holds no newline, the next byte,
    newline or not, empties it: the scan runs round to [head] and the
    cursors meet, wherever they were. *)
Theorem line_without_newline_dropped (r : rbuf.t) (c : Z) :
  rbuf_ok r → Z.of_nat (length (window r)) = BUF_SIZE - 1 →
  Forall (λ b, b ≠ NL) (window r) →
  ∃ r', ring_buffer_write r [c] = Ok r'
        ∧ window r' = [] ∧ rbuf.head r' = rbuf.tail r'.
Proof.
  intros Hok Hfull Hline.
  destruct (ring_buffer_write_window r [c] Hok) as (r' & Hw & Hok' & _ & _ & Hwin).
  assert (window r' = []) as Hempty.
  { rewrite Hwin. unfold pushes, push. simpl.
    destruct (Z.ltb_spec (Z.of_nat (length (window r)) + 1) BUF_SIZE); [lia|].
    destruct (Z.eq_dec c NL) as [->|Hc].
    - by apply after_newline_first_line.
    - apply after_newline_none, Forall_app. split; [done|].
      by apply Forall_singleton. }
  exists r'. split; [done|]. split; [done|]. by apply window_empty_cursors.
Qed.

(** X6. How the bytes are cut into calls does not matter: two sequences of
    chunks with the same bytes leave the same ring, or fail alike. *)
Theorem writes_independent_of_chunking (r : rbuf.t) (c1 c2 : list (list Z)) :
  concat c1 = concat c2 →
  ring_buffer_writes r c1 = ring_buffer_writes r c2.
Proof. intros Heq. by rewrite !ring_buffer_writes_concat, Heq. Qed.

(** X7. A ring that was reset and then written to, with anything, passes
    the validity check of the next start. *)
Theorem written_ring_stays_valid (r : rbuf.t) (chunks : list (list Z)) :
  sized (rbuf.data r) → 0 <= rbuf.addr r → rbuf.addr r + BUF_SIZE <= 2 ^ 64 →
  ∃ r', ring_buffer_writes (ring_buffer_init r) chunks = Ok r'
        ∧ ring_valid r' = true.
Proof.
  intros Hlen Ha Hb. destruct (ring_buffer_init_ok r Hlen) as [Hok _].
  destruct (ring_buffer_writes_window _ chunks Hok)
    as (r' & Hw & Hok' & Haddr & Hmagic & _).
  exists r'. split; [done|].
  apply rbuf_ok_valid; [done|by rewrite Hmagic|by rewrite Haddr..].
Qed.

(** ** Properties of the start-up and of a whole session *)

(** The start on a ring that passes the check: the snapshot is taken, the
    ring is reset and then takes in what the kernel prints while the
    console is registered. *)
Lemma late_init_valid (r : rbuf.t) (l : lbuf.t) (printed : list (list Z)) :
  rbuf_typed r → sized (lbuf.data l) → ring_valid r = true →
  ∃ r2 l2,
    proc_kmsg_last_late_init (Some r) (Some l) printed
    = Ok (0, Some r2, Some l2)
    ∧ lbuf_ok l2
    ∧ lbuf.count l2 = Z.of_nat (length (window r))
    ∧ snapshot l2 = sanitize <$> window r
    ∧ rbuf_ok r2 ∧ rbuf.addr r2 = rbuf.addr r ∧ rbuf.magic r2 = BUF_MAGIC
    ∧ window r2 = pushes [] (concat printed).
Proof.
  intros Htyped Hout Hvalid.
  destruct (ring_buffer_copy_snapshot r l Htyped Hout Hvalid)
    as (l2 & Hcopy & Hok2 & Hcount & Hsnap).
  destruct (ring_buffer_init_ok r (proj1 Htyped)) as [Hok Hempty].
  destruct (ring_buffer_writes_window _ printed Hok)
    as (r2 & Hw & Hokr2 & Haddr & Hmagic & Hwin).
  exists r2, l2. unfold proc_kmsg_last_late_init.
  rewrite Hcopy. run. rewrite Hw. run.
  rewrite Hempty in Hwin. by split_and!.
Qed.

(** X8. A session and the next start: after a reset, any writes, and then
    [proc_kmsg_last_late_init] on the same memory, the start returns 0 and
    the snapshot is the sanitized retained window, which is a suffix of the
    sanitized bytes of the session; the ring is in order again and holds
    bytes printed since the start only, nothing of the old session. *)
Theorem reboot_keeps_sanitized_tail
    (r : rbuf.t) (l : lbuf.t) (chunks printed : list (list Z)) :
  sized (rbuf.data r) → 0 <= rbuf.addr r → rbuf.addr r + BUF_SIZE <= 2 ^ 64 →
  sized (lbuf.data l) →
  ∃ r1 r2 l2,
    ring_buffer_writes (ring_buffer_init r) chunks = Ok r1
    ∧ proc_kmsg_last_late_init (Some r1) (Some l) printed
      = Ok (0, Some r2, Some l2)
    ∧ snapshot l2 = sanitize <$> pushes [] (concat chunks)
    ∧ snapshot l2 `suffix_of` (sanitize <$> concat chunks)
    ∧ rbuf_ok r2
    ∧ window r2 `suffix_of` concat printed.
Proof.
  intros Hlen Ha Hb Hout. destruct (ring_buffer_init_ok r Hlen) as [Hok Hempty].
  destruct (ring_buffer_writes_window _ chunks Hok)
    as (r1 & Hw & Hok1 & Haddr & Hmagic & Hwin).
  destruct (rbuf_ok_valid r1 Hok1) as [Hvalid Htyped];
    [by rewrite Hmagic|by rewrite Haddr..|].
  destruct (late_init_valid r1 l printed Htyped Hout Hvalid)
    as (r2 & l2 & Hinit & _ & _ & Hsnap & Hok2 & _ & _ & Hwin2).
  exists r1, r2, l2. split; [done|]. split; [done|].
  rewrite Hsnap, Hwin, Hempty, Hwin2.
  split; [done|]. split; [|split; [done|]].
  - apply suffix_fmap_sanitize, (pushes_suffix (concat chunks) []).
  - apply (pushes_suffix (concat printed) []).
Qed.

(** X9. Round trip: text of newlines and bytes [0x20 .. 0x7F], shorter than
    the capacity, written after a reset comes back from the next start
    unchanged, with its length. *)
Theorem reboot_round_trip
    (r : rbuf.t) (l : lbuf.t) (chunks printed : list (list Z)) :
  sized (rbuf.data r) → 0 <= rbuf.addr r → rbuf.addr r + BUF_SIZE <= 2 ^ 64 →
  sized (lbuf.data l) →
  Z.of_nat (length (concat chunks)) < BUF_SIZE →
  Forall printable (concat chunks) →
  ∃ r1 r2 l2,
    ring_buffer_writes (ring_buffer_init r) chunks = Ok r1
    ∧ proc_kmsg_last_late_init (Some r1) (Some l) printed
      = Ok (0, Some r2, Some l2)
    ∧ lbuf.count l2 = Z.of_nat (length (concat chunks))
    ∧ snapshot l2 = concat chunks.
Proof.
  intros Hlen Ha Hb Hout Hfit Hprint.
  destruct (ring_buffer_init_ok r Hlen) as [Hok Hempty].
  destruct (ring_buffer_writes_window _ chunks Hok)
    as (r1 & Hw & Hok1 & Haddr & Hmagic & Hwin).
  rewrite Hempty, pushes_room in Hwin by (simpl; lia). simpl in Hwin.
  destruct (rbuf_ok_valid r1 Hok1) as [Hvalid Htyped];
    [by rewrite Hmagic|by rewrite Haddr..|].
  destruct (late_init_valid r1 l printed Htyped Hout Hvalid)
    as (r2 & l2 & Hinit & _ & Hcount & Hsnap & _).
  exists r1, r2, l2. split; [done|]. split; [done|].
  rewrite Hcount, Hsnap, Hwin.
  split; [done|]. by apply fmap_sanitize_printable.
Qed.

(** X10. [proc_kmsg_last_late_init] on any content of the two blocks
    returns 0 and leaves a ring that is in order, passes the validity check
    and retains bytes printed since the start only: none when nothing was
    printed.  At the start after that one the snapshot is the sanitized
    tail of what was printed since the first start: only the session just
    before a start is kept. *)
Theorem late_init_resets (r : rbuf.t) (l : lbuf.t) (printed again : list (list Z)) :
  rbuf_typed r → sized (lbuf.data l) →
  ∃ r1 l1 r2 l2,
    proc_kmsg_last_late_init (Some r) (Some l) printed
    = Ok (0, Some r1, Some l1)
    ∧ rbuf_ok r1
    ∧ ring_valid r1 = true
    ∧ window r1 = pushes [] (concat printed)
    ∧ window r1 `suffix_of` concat printed
    ∧ proc_kmsg_last_late_init (Some r1) (Some l1) again
      = Ok (0, Some r2, Some l2)
    ∧ snapshot l2 = sanitize <$> pushes [] (concat printed).
Proof.
  intros Htyped Hout.
  destruct (ring_buffer_copy_total r l Htyped Hout) as (l1 & Hcopy & Hok1).
  pose proof Htyped as (Hlen & Ha & Hb & _).
  destruct (ring_buffer_init_ok r Hlen) as [Hok Hempty].
  destruct (ring_buffer_writes_window _ printed Hok)
    as (r1 & Hw & Hokr1 & Haddr & Hmagic & Hwin).
  rewrite Hempty in Hwin.
  destruct (rbuf_ok_valid r1 Hokr1) as [Hvalid Htyped1];
    [by rewrite Hmagic|by rewrite Haddr..|].
  destruct (late_init_valid r1 l1 again Htyped1 (proj1 Hok1) Hvalid)
    as (r2 & l2 & Hinit2 & _ & _ & Hsnap & _).
  exists r1, l1, r2, l2. split.
  { unfold proc_kmsg_last_late_init. rewrite Hcopy. run. rewrite Hw. by run. }
  split; [done|]. split; [done|]. split; [done|]. split.
  { rewrite Hwin. apply (pushes_suffix (concat printed) []). }
  split; [done|]. by rewrite Hsnap, Hwin.
Qed.

(** ** Properties of the sanitizer *)

(** X11. Sanitizing is idempotent, and it leaves a byte that is already
    safe to show (newline or [0x20 .. 0x7F]) as it is. *)
Theorem sanitize_settles (c : Z) :
  is_char c →
  sanitize (sanitize c) = sanitize c ∧ (printable c → sanitize c = c).
Proof.
  intros Hc. split; [|apply sanitize_fixes_printable].
  apply Z.eqb_eq. by apply (all_chars (λ c, sanitize (sanitize c) =? sanitize c)).
Qed.

(** X12. The snapshot shows a newline for exactly two bytes of the ring: the
    newline itself and [0x8A], the newline with the high bit set. *)
Theorem sanitize_newline_sources (c : Z) :
  is_char c → sanitize c = NL ↔ c = 0x0A ∨ c = 0x8A.
Proof.
  intros Hc.
  pose proof (all_chars
    (λ c, Bool.eqb (sanitize c =? NL) ((c =? 0x0A) || (c =? 0x8A)))
    eq_refl c Hc) as H.
  cbv beta in H. apply Bool.eqb_prop in H.
  rewrite <- Z.eqb_eq, H, orb_true_iff, !Z.eqb_eq. done.
Qed.

(** ** Properties of [linear_buffer_read] *)

Lemma read_in_range (l : lbuf.t) (ubuf count pos : Z) :
  lbuf_ok l → 0 <= pos → 0 <= count <= ubuf → ubuf < 2 ^ 63 →
  linear_buffer_read l ubuf count pos
  = Ok (mk_read (Z.min count (lbuf.count l - Z.min pos (lbuf.count l)))
          (take (Z.to_nat (Z.min count (lbuf.count l - Z.min pos (lbuf.count l))))
                (drop (Z.to_nat (Z.min pos (lbuf.count l))) (snapshot l)))
          (Z.min pos (lbuf.count l)
           + Z.min count (lbuf.count l - Z.min pos (lbuf.count l)))).
Proof.
  intros Hok Hpos Hcount Hubuf.
  pose proof (linear_buffer_read_clamped l ubuf count pos Hok) as Hread.
  destruct Hok as [_ Hlen]. assert (BUF_SIZE < 2 ^ 63) as Hbig by done.
  rewrite Hread by lia. clear Hread.
  destruct (Z.leb_spec (Z.min count (lbuf.count l - Z.min pos (lbuf.count l)))
              ubuf); [done|lia].
Qed.

(** X13. Two reads in a row, the second at the position the first left,
    hand out together what one read of the two counts hands out, and leave
    the same position. *)
Theorem reads_in_sequence (l : lbuf.t) (ubuf n1 n2 pos : Z) :
  lbuf_ok l → 0 <= pos → 0 <= n1 → 0 <= n2 → n1 + n2 <= ubuf → ubuf < 2 ^ 63 →
  ∃ res1 res2 res,
    linear_buffer_read l ubuf n1 pos = Ok res1
    ∧ linear_buffer_read l ubuf n2 (read_pos res1) = Ok res2
    ∧ linear_buffer_read l ubuf (n1 + n2) pos = Ok res
    ∧ read_bytes res = read_bytes res1 ++ read_bytes res2
    ∧ read_ret res = read_ret res1 + read_ret res2
    ∧ read_pos res = read_pos res2.
Proof.
  intros Hok Hpos Hn1 Hn2 Hubuf Hsmall.
  pose proof Hok as [_ Hlen].
  set (len := lbuf.count l) in *.
  set (off := Z.min pos len).
  set (a := Z.min n1 (len - off)).
  set (b := Z.min n2 (len - (off + a))).
  assert (Z.min (off + a) len = off + a) as Hoff2 by lia.
  assert (Z.min (n1 + n2) (len - off) = a + b) as Hsum by lia.
  do 3 eexists.
  split; [apply read_in_range; (done || lia)|]. cbn [read_pos]. fold len off a.
  split; [apply read_in_range; (done || lia)|]. fold len.
  split; [apply read_in_range; (done || lia)|]. fold len off.
  cbn [read_bytes read_ret read_pos]. rewrite Hoff2, Hsum. fold b.
  split; [|lia].
  rewrite Z2Nat.inj_add by lia. rewrite <- take_take_drop, drop_drop.
  by rewrite <- Z2Nat.inj_add by lia.
Qed.

(** X14. One read from position 0 with a count of at least the length
    hands out the whole snapshot and moves the position to its end; a read
    there hands out nothing and returns 0, the end of the file. *)
Theorem whole_snapshot_then_eof (l : lbuf.t) (ubuf count : Z) :
  lbuf_ok l → lbuf.count l <= count <= ubuf → ubuf < 2 ^ 63 →
  linear_buffer_read l ubuf count 0
  = Ok (mk_read (lbuf.count l) (snapshot l) (lbuf.count l))
  ∧ linear_buffer_read l ubuf count (lbuf.count l)
    = Ok (mk_read 0 [] (lbuf.count l)).
Proof.
  intros Hok Hcount Hubuf. pose proof Hok as [_ Hlen].
  rewrite !read_in_range by (done || lia).
  rewrite (Z.min_l 0), Z.min_id, Z.sub_0_r, Z.sub_diag by lia.
  rewrite (Z.min_r count (lbuf.count l)), (Z.min_r count 0) by lia.
  split.
  - rewrite Z.add_0_l. do 2 f_equal.
    unfold snapshot. by rewrite drop_0, take_take, Nat.min_id.
  - by rewrite Z.add_0_r.
Qed.

(** X15. A read whose slice does not fit the caller's buffer returns
    [-EFAULT] and leaves the position where it was; what reached the
    caller's buffer before the copy stopped is the front of the clamped
    slice, as much of it as the buffer takes. *)
Theorem fault_leaves_position (l : lbuf.t) (ubuf count pos : Z) :
  lbuf_ok l → 0 <= pos → 0 <= count < 2 ^ 63 →
  0 <= ubuf < Z.min count (lbuf.count l - pos) →
  ∃ res,
    linear_buffer_read l ubuf count pos = Ok res
    ∧ read_ret res = - EFAULT
    ∧ read_pos res = pos
    ∧ read_bytes res = take (Z.to_nat ubuf) (drop (Z.to_nat pos) (snapshot l))
    ∧ read_bytes res
      `prefix_of` take (Z.to_nat (Z.min count (lbuf.count l - pos)))
                       (drop (Z.to_nat pos) (snapshot l)).
Proof.
  intros Hok Hpos Hcount Hubuf.
  pose proof (linear_buffer_read_clamped l ubuf count pos Hok) as Hread.
  destruct Hok as [_ Hlen]. assert (BUF_SIZE < 2 ^ 63) as Hbig by done.
  rewrite Hread by lia. clear Hread.
  rewrite (Z.min_l pos) by lia.
  destruct (Z.leb_spec (Z.min count (lbuf.count l - pos)) ubuf); [lia|].
  eexists. split; [done|]. cbn [read_ret read_pos read_bytes].
  split; [done|]. split; [done|]. split; [done|].
  set (S := drop (Z.to_nat pos) (snapshot l)).
  exists (take (Z.to_nat (Z.min count (lbuf.count l - pos)) - Z.to_nat ubuf)
               (drop (Z.to_nat ubuf) S)).
  rewrite take_take_drop. f_equal. lia.
Qed.

(** X16. A read hands out as many bytes as it returns, never more than the
    count and never past the end of the snapshot; it hands out fewer than
    the count only when it reaches the end. *)
Theorem short_read_means_end (l : lbuf.t) (ubuf count pos : Z) :
  lbuf_ok l → 0 <= pos → 0 <= count <= ubuf → ubuf < 2 ^ 63 →
  ∃ res,
    linear_buffer_read l ubuf count pos = Ok res
    ∧ 0 <= read_ret res <= count
    ∧ Z.of_nat (length (read_bytes res)) = read_ret res
    ∧ read_pos res = Z.min pos (lbuf.count l) + read_ret res
    ∧ read_pos res <= lbuf.count l
    ∧ (read_ret res < count → read_pos res = lbuf.count l).
Proof.
  intros Hok Hpos Hcount Hubuf. pose proof Hok as [Hsz Hlen].
  eexists. split; [by apply read_in_range|]. cbn [read_ret read_bytes read_pos].
  split; [lia|]. split; [|lia].
  unfold snapshot, sized in *. rewrite length_take, length_drop, length_take. lia.
Qed.

(** ** Instances *)

Lemma nearly_full_ring_ok : rbuf_ok nearly_full_ring.
Proof. repeat split; by vm_compute. Qed.

Lemma one_line_ring_ok : rbuf_ok one_line_ring.
Proof. repeat split; by vm_compute. Qed.

Lemma wrapped_ring_ok : rbuf_ok wrapped_ring.
Proof. repeat split; by vm_compute. Qed.

Lemma cold_block_sized : sized (rbuf.data cold_block).
Proof. by vm_compute. Qed.

Lemma write_follows_push_witness :
  ∃ r', ring_buffer_write nearly_full_ring [0x43; NL; 0x44] = Ok r'
        ∧ window r' = pushes (window nearly_full_ring) [0x43; NL; 0x44].
Proof. apply write_follows_push. exact nearly_full_ring_ok. Defined.

Lemma window_suffix_of_stream_witness :
  ∃ r', ring_buffer_writes (ring_buffer_init cold_block) [full_line; [98; 99]] = Ok r'
        ∧ window r' `suffix_of` concat [full_line; [98; 99]]
        ∧ Z.of_nat (length (window r')) < BUF_SIZE.
Proof. apply window_suffix_of_stream. exact cold_block_sized. Defined.

Lemma bytes_appended_while_room_witness :
  ∃ r', ring_buffer_write wrapped_ring [1; 2; 3] = Ok r'
        ∧ window r' = window wrapped_ring ++ [1; 2; 3]
        ∧ rbuf.tail r' = rbuf.tail wrapped_ring.
Proof.
  apply bytes_appended_while_room.
  - exact wrapped_ring_ok.
  - by vm_compute.
Defined.

Lemma oldest_line_evicted_witness :
  ∃ r', ring_buffer_write nearly_full_ring [0x43] = Ok r'
        ∧ window r'
          = (replicate (Z.to_nat BUF_SIZE - 8) 0x42 ++ [0x41; 0x41]) ++ [0x43].
Proof.
  apply (oldest_line_evicted nearly_full_ring (replicate 4 0x41)).
  - exact nearly_full_ring_ok.
  - by vm_compute.
  - vm_compute. reflexivity.
  - apply Forall_replicate. by vm_compute.
Defined.

Lemma line_without_newline_dropped_witness :
  ∃ r', ring_buffer_write one_line_ring [NL] = Ok r'
        ∧ window r' = [] ∧ rbuf.head r' = rbuf.tail r'.
Proof.
  apply line_without_newline_dropped.
  - exact one_line_ring_ok.
  - by vm_compute.
  - replace (window one_line_ring) with (replicate (Z.to_nat BUF_SIZE - 1) 0x42)
      by (vm_compute; reflexivity).
    apply Forall_replicate. by vm_compute.
Defined.

Lemma writes_independent_of_chunking_witness :
  ring_buffer_writes (ring_buffer_init cold_block) [[104; 105]; [10]]
  = ring_buffer_writes (ring_buffer_init cold_block) [[104]; []; [105; 10]].
Proof. apply writes_independent_of_chunking. reflexivity. Defined.

Lemma written_ring_stays_valid_witness :
  ∃ r', ring_buffer_writes (ring_buffer_init cold_block) [full_line; [98; 99]] = Ok r'
        ∧ ring_valid r' = true.
Proof.
  apply written_ring_stays_valid; [exact cold_block_sized|by vm_compute..].
Defined.

Lemma reboot_keeps_sanitized_tail_witness :
  ∃ r1 r2 l2,
    ring_buffer_writes (ring_buffer_init cold_block) [[0x80; 0x41]; [NL]] = Ok r1
    ∧ proc_kmsg_last_late_init (Some r1) (Some blank) [[0x72; 0x61; 0x6D; NL]]
      = Ok (0, Some r2, Some l2)
    ∧ snapshot l2 = sanitize <$> pushes [] (concat [[0x80; 0x41]; [NL]])
    ∧ snapshot l2 `suffix_of` (sanitize <$> concat [[0x80; 0x41]; [NL]])
    ∧ rbuf_ok r2
    ∧ window r2 `suffix_of` concat [[0x72; 0x61; 0x6D; NL]].
Proof.
  apply reboot_keeps_sanitized_tail;
    [exact cold_block_sized|by vm_compute|by vm_compute|exact blank_sized].
Defined.

Lemma reboot_round_trip_witness :
  ∃ r1 r2 l2,
    ring_buffer_writes (ring_buffer_init cold_block)
      [[104; 101; 108; 108; 111; 10]; [119; 111; 114; 108; 100]] = Ok r1
    ∧ proc_kmsg_last_late_init (Some r1) (Some blank) [[0x72; 0x61; 0x6D; NL]]
      = Ok (0, Some r2, Some l2)
    ∧ lbuf.count l2
      = Z.of_nat (length (concat [[104; 101; 108; 108; 111; 10];
                                  [119; 111; 114; 108; 100]]))
    ∧ snapshot l2
      = concat [[104; 101; 108; 108; 111; 10]; [119; 111; 114; 108; 100]].
Proof.
  apply reboot_round_trip;
    [exact cold_block_sized|by vm_compute|by vm_compute|exact blank_sized
    |by vm_compute|].
  simpl. repeat apply List.Forall_cons; try apply Forall_nil;
    unfold printable, NL; lia.
Defined.

Lemma late_init_resets_witness :
  ∃ r1 l1 r2 l2,
    proc_kmsg_last_late_init (Some wrapped_ring) (Some blank)
      [[0x72; 0x61; 0x6D; NL]]
    = Ok (0, Some r1, Some l1)
    ∧ rbuf_ok r1
    ∧ ring_valid r1 = true
    ∧ window r1 = pushes [] (concat [[0x72; 0x61; 0x6D; NL]])
    ∧ window r1 `suffix_of` concat [[0x72; 0x61; 0x6D; NL]]
    ∧ proc_kmsg_last_late_init (Some r1) (Some l1) []
      = Ok (0, Some r2, Some l2)
    ∧ snapshot l2 = sanitize <$> pushes [] (concat [[0x72; 0x61; 0x6D; NL]]).
Proof. apply late_init_resets; [exact wrapped_ring_typed|exact blank_sized]. Defined.

Lemma sanitize_settles_witness :
  sanitize (sanitize 0x9B) = sanitize 0x9B ∧ (printable 0x9B → sanitize 0x9B = 0x9B).
Proof. apply sanitize_settles. unfold is_char. lia. Defined.

Lemma sanitize_newline_sources_witness :
  sanitize 0x8A = NL ↔ 0x8A = 0x0A ∨ 0x8A = 0x8A.
Proof. apply sanitize_newline_sources. unfold is_char. lia. Defined.

Lemma reads_in_sequence_witness :
  ∃ res1 res2 res,
    linear_buffer_read letters 4096 60 10 = Ok res1
    ∧ linear_buffer_read letters 4096 60 (read_pos res1) = Ok res2
    ∧ linear_buffer_read letters 4096 (60 + 60) 10 = Ok res
    ∧ read_bytes res = read_bytes res1 ++ read_bytes res2
    ∧ read_ret res = read_ret res1 + read_ret res2
    ∧ read_pos res = read_pos res2.
Proof.
  apply reads_in_sequence; [exact letters_ok|lia|lia|lia|lia|by vm_compute].
Defined.

Lemma whole_snapshot_then_eof_witness :
  linear_buffer_read letters 4096 4096 0
  = Ok (mk_read (lbuf.count letters) (snapshot letters) (lbuf.count letters))
  ∧ linear_buffer_read letters 4096 4096 (lbuf.count letters)
    = Ok (mk_read 0 [] (lbuf.count letters)).
Proof.
  apply whole_snapshot_then_eof; [exact letters_ok|by vm_compute|by vm_compute].
Defined.

Lemma fault_leaves_position_witness :
  ∃ res,
    linear_buffer_read letters 5 10 20 = Ok res
    ∧ read_ret res = - EFAULT
    ∧ read_pos res = 20
    ∧ read_bytes res = take (Z.to_nat 5) (drop (Z.to_nat 20) (snapshot letters))
    ∧ read_bytes res
      `prefix_of` take (Z.to_nat (Z.min 10 (lbuf.count letters - 20)))
                       (drop (Z.to_nat 20) (snapshot letters)).
Proof.
  apply fault_leaves_position; [exact letters_ok|lia|by vm_compute|by vm_compute].
Defined.

Lemma short_read_means_end_witness :
  ∃ res,
    linear_buffer_read letters 4096 10 95 = Ok res
    ∧ 0 <= read_ret res <= 10
    ∧ Z.of_nat (length (read_bytes res)) = read_ret res
    ∧ read_pos res = Z.min 95 (lbuf.count letters) + read_ret res
    ∧ read_pos res <= lbuf.count letters
    ∧ (read_ret res < 10 → read_pos res = lbuf.count letters).
Proof.
  apply short_read_means_end; [exact letters_ok|lia|lia|by vm_compute].
Defined.
